(** * Verification of the chunked transcription pipeline of [main_remote.py]

    The development embeds [AudioTranscriber] (validation, chunk computation,
    per-chunk transcription with its temporary file, the collecting loop over
    the thread pool's completions, reassembly and persistence) as Rocq
    functions over an explicit world (file system and event trace), and
    proves the properties of the specification against that embedding. *)

From Stdlib Require Import ZArith String Ascii List Permutation Sorted.
From Stdlib Require QArith_base.
From stdpp Require Import gmap strings list fin_maps pretty.

Import ListNotations.

(** ** Exceptions

    Python raises objects; the embedding keeps one constructor per raising
    site, so that a result tells which step failed. The comment gives the
    Python class and the place. *)

Inductive exn : Type :=
  | FileNotFoundError      (* validate_audio_file, line 90 *)
  | UnsupportedFormat      (* ValueError, validate_audio_file, line 94 *)
  | DecodeFailure          (* AudioSegment.from_file, line 178 *)
  | ZeroDivisionError      (* len(full_audio) // self.chunk_length_ms, line 181 *)
  | PoolSizeError          (* ValueError of ThreadPoolExecutor(max_workers <= 0), line 189 *)
  | ExportFailure          (* chunk.export, line 124 *)
  | OpenFailure            (* open(temp_filepath, "rb"), line 127 *)
  | ServiceFailure         (* client.audio.transcriptions.create, line 128 *)
  | UnlinkFailure          (* temp_filepath.unlink, line 140 *)
  | WriteFailure.          (* open(output_filepath, 'w') / file.write, lines 213-214 *)

#[global] Instance exn_eq_dec : EqDecision exn.
Proof. solve_decision. Defined.

(** A computation that returns or raises. *)
Definition result (A : Type) : Type := (exn + A)%type.

Definition ret {A} (a : A) : result A := inr a.
Definition raise {A} (e : exn) : result A := inl e.

Definition bind {A B} (m : result A) (k : A -> result B) : result B :=
  match m with
  | inl e => inl e
  | inr a => k a
  end.

Notation "'let!' x := m 'in' k" := (bind m (fun x => k))
  (at level 10, x name, m at level 100, k at level 200, only parsing).

Definition raises {A} (r : result A) : Prop :=
  match r with inl _ => True | inr _ => False end.

(** ** Audio segments

    A pydub [AudioSegment] is kept as the span of the source recording it
    covers, in milliseconds. [len] is Python's [len(segment)] and [getitem]
    is [segment[a:b]]: pydub clamps both bounds of a slice to the length of
    the segment ([start = min(start, len(self))], [end = min(end, len(self))]). *)

Record AudioSegment : Type := mkSeg { seg_start : Z; seg_stop : Z }.

#[global] Instance AudioSegment_eq_dec : EqDecision AudioSegment.
Proof. solve_decision. Defined.

Definition len (s : AudioSegment) : Z := (seg_stop s - seg_start s)%Z.

Definition getitem (s : AudioSegment) (a b : Z) : AudioSegment :=
  {| seg_start := (seg_start s + Z.min a (len s))%Z;
     seg_stop := (seg_start s + Z.min b (len s))%Z |}.

(** The handle of a decoded recording of [D] milliseconds. *)
Definition whole (D : Z) : AudioSegment := {| seg_start := 0%Z; seg_stop := D |}.

(** ** Chunk computation (transcribe_file, lines 180-185)

    [//] and [%] are Python's floor division and modulo, whose remainder has
    the sign of the divisor, as [Z.div] and [Z.modulo] have; Python raises
    [ZeroDivisionError] on a zero divisor where Rocq returns 0, so the test
    is written out. *)

Definition floordiv (a b : Z) : result Z :=
  if decide (b = 0)%Z then raise ZeroDivisionError else ret (Z.div a b).

Definition pymod (a b : Z) : result Z :=
  if decide (b = 0)%Z then raise ZeroDivisionError else ret (Z.modulo a b).

Definition num_chunks (total chunk_length_ms : Z) : result Z :=
  let! q := floordiv total chunk_length_ms in
  let! r := pymod total chunk_length_ms in
  ret (q + (if decide (r > 0)%Z then 1 else 0))%Z.

(** [range(n)] for a Python int [n]: empty when [n <= 0]. *)
Definition range (n : Z) : list nat := seq 0 (Z.to_nat n).

(** [full_audio[i * L:(i + 1) * L]]. *)
Definition chunk_at (chunk_length_ms : Z) (full_audio : AudioSegment) (i : nat)
  : AudioSegment :=
  getitem full_audio (Z.of_nat i * chunk_length_ms)%Z
                     ((Z.of_nat i + 1) * chunk_length_ms)%Z.

Definition calculate_chunks (chunk_length_ms : Z) (full_audio : AudioSegment)
  : result (list AudioSegment) :=
  let! n := num_chunks (len full_audio) chunk_length_ms in
  ret (map (chunk_at chunk_length_ms full_audio) (range n)).

(** ** Strings and paths

    [str.lower], [str.rfind], slicing, and the parts of pathlib the class
    uses: [/], [name], [suffix], [stem]. *)

Definition newline : string := String (ascii_of_nat 10) EmptyString.

(** Python's [sep.join(texts)]. *)
Fixpoint join (sep : string) (texts : list string) : string :=
  match texts with
  | [] => ""
  | [t] => t
  | t :: rest => t +:+ sep +:+ join sep rest
  end.

Definition lower_char (c : ascii) : ascii :=
  let n := nat_of_ascii c in
  if decide (65 <= n <= 90) then ascii_of_nat (n + 32) else c.

Fixpoint lower (s : string) : string :=
  match s with
  | EmptyString => EmptyString
  | String c s' => String (lower_char c) (lower s')
  end.

(** [s.rfind(c)], [None] standing for Python's -1. *)
Fixpoint rfind (c : ascii) (s : string) : option nat :=
  match s with
  | EmptyString => None
  | String a s' =>
      match rfind c s' with
      | Some i => Some (S i)
      | None => if decide (a = c) then Some 0 else None
      end
  end.

(** [s[:i]] and [s[i:]] for [0 <= i]. *)
Fixpoint take_str (i : nat) (s : string) : string :=
  match i, s with
  | S i', String a s' => String a (take_str i' s')
  | _, _ => EmptyString
  end.

Fixpoint drop_str (i : nat) (s : string) : string :=
  match i, s with
  | S i', String _ s' => drop_str i' s'
  | _, _ => s
  end.

(** [s.split(c)]: the pieces of [s] between the occurrences of [c]. *)
Fixpoint split_on (c : ascii) (s : string) : list string :=
  match s with
  | EmptyString => [EmptyString]
  | String a s' =>
      if decide (a = c) then EmptyString :: split_on c s'
      else
        match split_on c s' with
        | piece :: pieces => String a piece :: pieces
        | [] => [String a EmptyString]
        end
  end.

(** A pathlib path is kept as its string, [str(path)]. Parsing a string
    into a path ([PurePosixPath]) finds the root, which is [//] for
    exactly two leading separators, [/] for one or for three and more, and
    empty otherwise, and the parts, which are the pieces between
    separators less the empty ones and the [.] ones. *)
Definition path_root (s : string) : string :=
  match s with
  | String a s1 =>
      if decide (a = "/"%char) then
        match s1 with
        | String b s2 =>
            if decide (b = "/"%char) then
              match s2 with
              | String c _ => if decide (c = "/"%char) then "/" else "//"
              | EmptyString => "//"
              end
            else "/"
        | EmptyString => "/"
        end
      else ""
  | EmptyString => ""
  end.

Definition path_parts (s : string) : list string :=
  filter (fun piece => piece <> "" /\ piece <> ".") (split_on "/" s).

(** [str(path)]: the root and the parts with separators between them, or
    [.] when there is neither. *)
Definition path_str (root : string) (parts : list string) : string :=
  let s := root +:+ join "/" parts in
  if decide (s = "") then "." else s.

(** [PurePath.name]: the final component, empty for the path [.] and for
    a root. *)
Definition path_name (p : string) : string :=
  if decide (p = ".") then ""
  else
    match rfind "/" p with
    | Some i => drop_str (S i) p
    | None => p
    end.

(** [PurePath.suffix]: [i = name.rfind('.')], then [name[i:]] when
    [0 < i < len(name) - 1], else the empty string. *)
Definition suffix (p : string) : string :=
  let name := path_name p in
  match rfind "." name with
  | Some i => if decide (0 < i /\ i + 1 < String.length name) then drop_str i name else ""
  | None => ""
  end.

(** [PurePath.stem]: [name[:i]] under the same test, else [name]. *)
Definition stem (p : string) : string :=
  let name := path_name p in
  match rfind "." name with
  | Some i => if decide (0 < i /\ i + 1 < String.length name) then take_str i name else name
  | None => name
  end.

(** [str(Path(directory) / filename)]: an absolute [filename] replaces the
    directory, a relative one adds its parts to those of the directory. *)
Definition path_join (directory filename : string) : string :=
  if decide (path_root filename = "")
  then path_str (path_root directory) (path_parts directory ++ path_parts filename)
  else path_str (path_root filename) (path_parts filename).

(** ** The world: file system and observable events *)

Inductive content : Type :=
  | Audio (duration_ms : Z)   (* decodable audio of that duration *)
  | Text (s : string)         (* text written with encoding utf-8 *)
  | Garbage.                  (* anything that does not decode *)

Inductive event : Type :=
  | EvDecode (path : string)                 (* AudioSegment.from_file *)
  | EvExport (path : string)                 (* chunk.export *)
  | EvServiceCall (chunk_index : nat)        (* client.audio.transcriptions.create *)
  | EvUnlink (path : string)                 (* temp_filepath.unlink *)
  | EvWrite (path : string)                  (* writing the output file *)
  | LogChunkError (chunk_index : nat) (e : exn)    (* logger.error, line 135 *)
  | LogChunkFailed (chunk_index : nat) (e : exn)   (* logger.error, line 205 *)
  | LogTranscriptionFailed (e : exn).              (* logger.error, line 220 *)

Record world : Type := mkWorld {
  fs : gmap string content;
  trace : list event
}.

Definition emit (ev : event) (w : world) : world :=
  {| fs := fs w; trace := trace w ++ [ev] |}.

Definition set_file (path : string) (c : content) (w : world) : world :=
  {| fs := <[path := c]> (fs w); trace := trace w |}.

Definition remove_file (path : string) (w : world) : world :=
  {| fs := delete path (fs w); trace := trace w |}.

(** ** State and exceptions together *)

Definition M (A : Type) : Type := world -> result A * world.

Definition pure {A} (a : A) : M A := fun w => (inr a, w).
Definition throw {A} (e : exn) : M A := fun w => (inl e, w).
Definition lift {A} (r : result A) : M A := fun w => (r, w).
Definition tell (ev : event) : M unit := fun w => (inr tt, emit ev w).

Definition bindM {A B} (m : M A) (k : A -> M B) : M B :=
  fun w =>
    match m w with
    | (inl e, w') => (inl e, w')
    | (inr a, w') => k a w'
    end.

Notation "'do!' x := m 'in' k" := (bindM m (fun x => k))
  (at level 10, x name, m at level 100, k at level 200, only parsing).

(** [try: body / except Exception as e: handler e]. *)
Definition try_except {A} (body : M A) (handler : exn -> M A) : M A :=
  fun w =>
    match body w with
    | (inl e, w') => handler e w'
    | (inr a, w') => (inr a, w')
    end.

(** [try: body / finally: cleanup]. The cleanup runs on every exit of the
    body; when the cleanup itself raises, Python propagates the cleanup's
    exception in place of the body's result or exception. *)
Definition try_finally {A} (body : M A) (cleanup : M unit) : M A :=
  fun w =>
    let '(r, w1) := body w in
    match cleanup w1 with
    | (inl e, w2) => (inl e, w2)
    | (inr _, w2) => (r, w2)
    end.

(** A future: the task is run and its outcome kept as a value. *)
Definition as_future {A} (task : M A) : M (result A) :=
  fun w => let '(r, w') := task w in (inr r, w').

(** ** What the run does not control

    One record per chunk for the clock and for the outcomes of the calls
    [process_chunk] makes outside the program, and the rank at which
    [as_completed] yields the chunk's future. *)

Record chunk_env : Type := mkChunkEnv {
  now : nat;                      (* int(time.time()), line 119 *)
  export_result : option bool;    (* None: export succeeds; Some b: it raises,
                                     having created the target file iff b *)
  open_fails : bool;              (* open(temp_filepath, "rb") raises *)
  service_reply : option string;  (* the text, or None when the call raises *)
  unlink_fails : bool;            (* temp_filepath.unlink() raises *)
  yielded_at : nat                (* rank at which as_completed yields the future *)
}.

Record run_env : Type := mkRunEnv {
  chunk_envs : nat -> chunk_env;
  write_result : option bool      (* None: the output is written; Some b: writing
                                     raises, having truncated the file iff b *)
}.

(** ** Primitive operations *)

Definition path_exists (path : string) : M bool :=
  fun w => (inr (bool_decide (is_Some (fs w !! path))), w).

(** [AudioSegment.from_file(str(path))]. *)
Definition from_file (path : string) : M AudioSegment :=
  fun w =>
    let w' := emit (EvDecode path) w in
    match fs w !! path with
    | Some (Audio D) => (inr (whole D), w')
    | _ => (inl DecodeFailure, w')
    end.

(** [chunk.export(path, format="mp3")]. *)
Definition export (ce : chunk_env) (chunk : AudioSegment) (path : string) : M unit :=
  fun w =>
    let w' := emit (EvExport path) w in
    match export_result ce with
    | None => (inr tt, set_file path (Audio (len chunk)) w')
    | Some created =>
        (inl ExportFailure, if created then set_file path Garbage w' else w')
    end.

(** [open(path, "rb")]. *)
Definition open_rb (ce : chunk_env) (path : string) : M unit :=
  fun w =>
    match fs w !! path with
    | None => (inl FileNotFoundError, w)
    | Some _ => if open_fails ce then (inl OpenFailure, w) else (inr tt, w)
    end.

(** [self.client.audio.transcriptions.create(model="whisper-1", file=...)]
    followed by [result.text]. *)
Definition create_transcription (ce : chunk_env) (chunk_index : nat) : M string :=
  fun w =>
    let w' := emit (EvServiceCall chunk_index) w in
    match service_reply ce with
    | Some text => (inr text, w')
    | None => (inl ServiceFailure, w')
    end.

(** [path.unlink()]. *)
Definition unlink (ce : chunk_env) (path : string) : M unit :=
  fun w =>
    let w' := emit (EvUnlink path) w in
    match fs w !! path with
    | None => (inl FileNotFoundError, w')
    | Some _ =>
        if unlink_fails ce then (inl UnlinkFailure, w')
        else (inr tt, remove_file path w')
    end.

(** [with open(path, 'w', encoding='utf-8') as file: file.write(text)]. *)
Definition write_text (env : run_env) (path text : string) : M unit :=
  fun w =>
    let w' := emit (EvWrite path) w in
    match write_result env with
    | None => (inr tt, set_file path (Text text) w')
    | Some truncated =>
        (inl WriteFailure, if truncated then set_file path (Text "") w' else w')
    end.

(** ** AudioTranscriber *)

Record AudioTranscriber : Type := mkTranscriber {
  input_path : string;
  output_path : string;
  chunk_length_ms : Z;
  max_workers : Z
}.

(** [__init__]: the attributes. Creating the OpenAI client and the two
    directories has no part in what follows. *)
Definition init (input_path output_path : string)
    (chunk_length_minutes max_workers : Z) : AudioTranscriber :=
  {| input_path := input_path;
     output_path := output_path;
     chunk_length_ms := (chunk_length_minutes * 60 * 1000)%Z;
     max_workers := max_workers |}.

Definition default_transcriber : AudioTranscriber :=
  init "data/input" "data/output" 10 3.

Definition supported_formats : gset string :=
  {[ ".mp3"; ".wav"; ".m4a"; ".ogg"; ".flac" ]}.

Definition validate_audio_file (filepath : string) : M bool :=
  do! present := path_exists filepath in
  if negb present then throw FileNotFoundError
  else if bool_decide (lower (suffix filepath) ∉ supported_formats)
  then throw UnsupportedFormat
  else pure true.

Definition temp_filename (chunk_index now : nat) : string :=
  "temp_chunk_" +:+ pretty chunk_index +:+ "_" +:+ pretty now +:+ ".mp3".

Definition temp_filepath (self : AudioTranscriber) (ce : chunk_env)
    (chunk_index : nat) : string :=
  path_join (output_path self) (temp_filename chunk_index (now ce)).

(** The [try] / [except] part of [process_chunk] (lines 122-136). *)
Definition process_chunk_body (self : AudioTranscriber) (ce : chunk_env)
    (chunk : AudioSegment) (chunk_index : nat) : M string :=
  let temp_filepath := temp_filepath self ce chunk_index in
  try_except
    (do! _exported := export ce chunk temp_filepath in
     do! _audio_file := open_rb ce temp_filepath in
     create_transcription ce chunk_index)
    (fun e =>
       do! _logged := tell (LogChunkError chunk_index e) in
       throw e).

(** The [finally] part (lines 137-140). *)
Definition process_chunk_cleanup (self : AudioTranscriber) (ce : chunk_env)
    (chunk_index : nat) : M unit :=
  let temp_filepath := temp_filepath self ce chunk_index in
  do! present := path_exists temp_filepath in
  if present then unlink ce temp_filepath else pure tt.

Definition process_chunk (self : AudioTranscriber) (ce : chunk_env)
    (chunk : AudioSegment) (chunk_index : nat) : M string :=
  try_finally (process_chunk_body self ce chunk chunk_index)
              (process_chunk_cleanup self ce chunk_index).

(** ** Sorting by key

    [list.sort(key=...)] is stable: elements with equal keys keep their
    order. Insertion from the right, placing an element before the first
    one whose key is not smaller, is such a sort. *)

Fixpoint insert_by {A} (key : A -> nat) (x : A) (l : list A) : list A :=
  match l with
  | [] => [x]
  | y :: l' => if decide (key x <= key y) then x :: l else y :: insert_by key x l'
  end.

Fixpoint sort_by {A} (key : A -> nat) (l : list A) : list A :=
  match l with
  | [] => []
  | x :: l' => insert_by key x (sort_by key l')
  end.

Definition key_le {A} (key : A -> nat) (x y : A) : Prop := key x <= key y.

(** ** The pool and the collecting loop (lines 188-206) *)

(** [enumerate(chunks)]. *)
Definition enumerate {A} (l : list A) : list (nat * A) :=
  combine (seq 0 (length l)) l.

(** The order in which [as_completed] yields the submitted futures. It is
    not the order of completion: the futures already finished when
    [as_completed] is called are yielded first, in the iteration order of a
    set, and only the others as they complete. The order is therefore taken
    from outside, as a rank per future; every order of the submitted
    futures is the order of some assignment of ranks. *)
Definition as_completed {A} (env : run_env) (submitted : list (nat * A))
  : list (nat * A) :=
  sort_by (fun task => yielded_at (chunk_envs env (fst task))) submitted.

(** The submitted tasks, each run to its end and kept as a future. The
    calls run in worker threads; each touches the file system at its own
    temporary path only, so the embedding runs them one after the other,
    in the order in which their futures are yielded. Leaving the
    [with ThreadPoolExecutor] block waits for every submitted task, also
    when the loop below has raised. *)
Fixpoint run_tasks (self : AudioTranscriber) (env : run_env)
    (tasks : list (nat * AudioSegment)) : M (list (nat * result string)) :=
  match tasks with
  | [] => pure []
  | (i, chunk) :: rest =>
      do! future := as_future (process_chunk self (chunk_envs env i) chunk i) in
      do! futures := run_tasks self env rest in
      pure ((i, future) :: futures)
  end.

(** [for future in as_completed(future_to_chunk)]: the text of a completed
    future is appended, the exception of a failed one is logged and
    re-raised. *)
Fixpoint collect (completed : list (nat * result string))
    (transcriptions : list (nat * string)) : M (list (nat * string)) :=
  match completed with
  | [] => pure transcriptions
  | (chunk_idx, future) :: rest =>
      do! transcriptions' :=
        try_except
          (do! transcription := lift future in
           pure (transcriptions ++ [(chunk_idx, transcription)]))
          (fun e =>
             do! _logged := tell (LogChunkFailed chunk_idx e) in
             throw e) in
      collect rest transcriptions'
  end.

(** [ThreadPoolExecutor(max_workers=n)] raises [ValueError] when [n <= 0]. *)
Definition process_in_parallel (self : AudioTranscriber) (env : run_env)
    (chunks : list AudioSegment) : M (list (nat * string)) :=
  if decide (max_workers self <= 0)%Z then throw PoolSizeError
  else
    do! completed := run_tasks self env (as_completed env (enumerate chunks)) in
    collect completed [].

(** ** Reassembly (lines 208-210)

    [transcriptions.sort(key=lambda x: x[0])] and the ["\n".join]. Neither
    statement raises. *)
Definition sort_and_combine (transcriptions : list (nat * string)) : result string :=
  ret (join newline (map snd (sort_by fst transcriptions))).

(** ** transcribe_file *)

Definition input_filepath (self : AudioTranscriber) (input_filename : string) : string :=
  path_join (input_path self) input_filename.

Definition output_filepath (self : AudioTranscriber) (input_filename : string) : string :=
  path_join (output_path self) (stem (input_filepath self input_filename) +:+ ".txt").

(** The [try] part of [transcribe_file] (lines 172-217). *)
Definition transcribe_file_body (self : AudioTranscriber) (env : run_env)
    (input_filename : string) : M string :=
  let input_filepath := input_filepath self input_filename in
  let output_filepath := output_filepath self input_filename in
  do! _valid := validate_audio_file input_filepath in
  do! full_audio := from_file input_filepath in
  do! chunks := lift (calculate_chunks (chunk_length_ms self) full_audio) in
  do! transcriptions := process_in_parallel self env chunks in
  do! full_transcription := lift (sort_and_combine transcriptions) in
  do! _written := write_text env output_filepath full_transcription in
  pure output_filepath.

Definition transcribe_file (self : AudioTranscriber) (env : run_env)
    (input_filename : string) : M string :=
  try_except
    (transcribe_file_body self env input_filename)
    (fun e =>
       do! _logged := tell (LogTranscriptionFailed e) in
       throw e).

(** No temporary path of any call. *)
Definition not_temp (self : AudioTranscriber) (path : string) : Prop :=
  forall ce i, path <> temp_filepath self ce i.

(** ** Leaving a path alone

    From [w] to [w'] the file at [path] is as it was and nothing was
    written to it. *)
Definition untouched (path : string) (w w' : world) : Prop :=
  fs w' !! path = fs w !! path /\
  exists evs, trace w' = trace w ++ evs /\ Forall (fun ev => ev <> EvWrite path) evs.

(** ** A run to evaluate

    Twenty-five minutes of audio under the default settings; the three
    chunks are answered "A", "B", "C" and their futures are yielded in the
    order 2, 1, 0. *)

Definition demo_chunk_env (i : nat) : chunk_env :=
  {| now := 1700;
     export_result := None;
     open_fails := false;
     service_reply := Some (nth i ["A"; "B"; "C"] "");
     unlink_fails := false;
     yielded_at := 10 - i |}.

Definition demo_env : run_env :=
  {| chunk_envs := demo_chunk_env; write_result := None |}.

Definition demo_world : world :=
  {| fs := {[ "data/input/talk.M4A" := Audio 1500000 ]}; trace := [] |}.

(** The service call fails and so does the removal of the temporary file. *)
Definition failing_chunk_env : chunk_env :=
  {| now := 1700;
     export_result := None;
     open_fails := false;
     service_reply := None;
     unlink_fails := true;
     yielded_at := 0 |}.

(** The same run with the service failing on chunk 1. *)
Definition failing_env : run_env :=
  {| chunk_envs := fun i =>
       if decide (i = 1) then
         {| now := 1700; export_result := None; open_fails := false;
            service_reply := None; unlink_fails := false; yielded_at := 5 |}
       else demo_chunk_env i;
     write_result := None |}.

(** The same file with a name that no format matches, and an empty
    recording. *)
Definition clip_world : world :=
  {| fs := {[ "data/input/clip.xyz" := Audio 1500000 ]}; trace := [] |}.

Definition silent_world : world :=
  {| fs := {[ "data/input/empty.wav" := Audio 0 ]}; trace := [] |}.

(** A name that is one part of a path: no separator in it, not empty and
    not [.]. *)
Definition single_component (name : string) : Prop :=
  rfind "/" name = None /\ name <> "" /\ name <> ".".

(** What [str(Path(directory) / name)] puts before a [name] of one part. *)
Definition dir_prefix (directory : string) : string :=
  match path_parts directory with
  | [] => path_root directory
  | parts => path_root directory +:+ join "/" parts +:+ "/"
  end.

(** ** Observations on a run *)

(** The chunk indices for which the transcription service was called, in
    the order of the calls. *)
Definition service_calls (evs : list event) : list nat :=
  omap (fun ev => match ev with EvServiceCall i => Some i | _ => None end) evs.

(** A call of [process_chunk] under [ce] gets as far as the service: the
    export and the opening of the exported file succeed. *)
Definition reaches_service (ce : chunk_env) : bool :=
  bool_decide (export_result ce = None) && negb (open_fails ce).

(** Every outside call of a chunk succeeds, the service answering [text]. *)
Definition answers (ce : chunk_env) (text : string) : Prop :=
  export_result ce = None /\ open_fails ce = false /\
  service_reply ce = Some text /\ unlink_fails ce = false.

(** The text the service returns for chunk [i], the empty string standing
    for a call that raises. *)
Definition reply (env : run_env) (i : nat) : string :=
  default "" (service_reply (chunk_envs env i)).

(** ** read_transcript_file (p_meeting_recap.py, lines 24-36)

    [open(filepath, 'r', encoding='utf-8')] and [file.read()]. The file is
    read in text mode with universal newlines: a carriage return followed
    by a line feed, and a carriage return alone, are both read as one line
    feed. A missing file raises [FileNotFoundError]; a file that is not
    text raises the decoding error of the codec, kept as [DecodeFailure]. *)
Fixpoint universal_newlines (s : string) : string :=
  match s with
  | EmptyString => EmptyString
  | String c s' =>
      if decide (c = "013"%char) then
        match s' with
        | String c' s'' =>
            if decide (c' = "010"%char)
            then String "010"%char (universal_newlines s'')
            else String "010"%char (universal_newlines s')
        | EmptyString => String "010"%char EmptyString
        end
      else String c (universal_newlines s')
  end.

Definition read_transcript_file (filepath : string) : M string :=
  fun w =>
    match fs w !! filepath with
    | Some (Text content) => (inr (universal_newlines content), w)
    | Some _ => (inl DecodeFailure, w)
    | None => (inl FileNotFoundError, w)
    end.

(** The sum of the lengths of segments. *)
Definition total_len (segments : list AudioSegment) : Z :=
  foldr Z.add 0%Z (map len segments).

(** ** langchain_utils.py

    The constructors of the language model clients. A client is kept as
    the record of the arguments its class is called with. [env] is the
    settings object of [env_config.py], kept as the map from the names of
    its attributes to their secret values; reading an attribute the object
    does not have raises [AttributeError]. Temperatures are floats that are
    passed on untouched, so their type is left open. *)

Inductive setup_error : Type :=
  | UnsupportedModelName (model_name : string)  (* ValueError, line 62 *)
  | IndexError                                  (* model_classes[model_name][0] *)
  | AttributeError (name : string).             (* env.<name> *)

Definition get_secret_value (env : gmap string string) (name : string)
  : setup_error + string :=
  match env !! name with
  | Some secret => inr secret
  | None => inl (AttributeError name)
  end.

(** The object [Settings()] makes: [openai_api_key] is the only attribute
    the class declares. *)
Definition declared_settings (openai_api_key : string) : gmap string string :=
  {[ "openai_api_key" := openai_api_key ]}.

Section Models.
Context {float : Type}.

Record ChatOpenAI : Type := mkChatOpenAI {
  oa_temperature : float;
  oa_model_name : string;
  oa_max_tokens : Z;
  oa_openai_api_key : string
}.

Record AzureChatOpenAI : Type := mkAzureChatOpenAI {
  azure_deployment : string;
  api_version : string;
  az_temperature : float;
  az_max_tokens : Z;
  openai_api_type : string;
  azure_endpoint : string;
  api_key : string
}.

Record ChatAnthropic : Type := mkChatAnthropic {
  model : string;
  an_temperature : float;
  anthropic_api_key : string;
  an_max_tokens : Z
}.

Definition get_llm_openai (env : gmap string string) (model_name : string)
    (temperature : float) (max_tokens request_timeout : Z)
  : setup_error + ChatOpenAI :=
  match get_secret_value env "openai_api_key" with
  | inl e => inl e
  | inr key =>
      inr {| oa_temperature := temperature;
             oa_model_name := model_name;
             oa_max_tokens := max_tokens;
             oa_openai_api_key := key |}
  end.

Definition model_classes : gmap string (list string) :=
  {[ "gpt-4" := ["gpt-4"];
     "gpt-4-1106-preview" := ["gpt-4"];
     "gpt-3.5-turbo" := ["gpt-35-turbo"];
     "gpt-3.5-turbo-1106" := ["gpt-35-turbo"] ]}.

Definition get_llm_azure (env : gmap string string) (model_name : string)
    (temperature : float) (max_tokens request_timeout : Z)
  : setup_error + AzureChatOpenAI :=
  let api_version := "2023-12-01-preview" in
  match model_classes !! model_name with
  | None => inl (UnsupportedModelName model_name)
  | Some deployments =>
      match deployments !! 0 with
      | None => inl IndexError
      | Some deployment =>
          match get_secret_value env "azure_openai_api_type" with
          | inl e => inl e
          | inr api_type =>
              match get_secret_value env "azure_openai_api_base" with
              | inl e => inl e
              | inr endpoint =>
                  match get_secret_value env "azure_openai_api_key" with
                  | inl e => inl e
                  | inr key =>
                      inr {| azure_deployment := deployment;
                             api_version := api_version;
                             az_temperature := temperature;
                             az_max_tokens := max_tokens;
                             openai_api_type := api_type;
                             azure_endpoint := endpoint;
                             api_key := key |}
                  end
              end
          end
      end
  end.

Definition models : list string :=
  ["claude-3-opus-20240229"; "claude-3-sonnet-20240229"; "claude-3-haiku-20240307"].

(** The lines printed, and the client or the exception. *)
Definition get_llm_anthropic (env : gmap string string) (model_name : string)
    (temperature : float) (max_tokens request_timeout : Z)
  : list string * (setup_error + ChatAnthropic) :=
  let '(model_name, printed) :=
    if bool_decide (model_name ∉ models)
    then ("claude-3-opus-20240229",
          ["--- Model not found defaulting to " +:+ "claude-3-opus-20240229"])
    else (model_name, []) in
  (printed,
   match get_secret_value env "anthropic_api_key" with
   | inl e => inl e
   | inr key =>
       inr {| model := model_name;
              an_temperature := temperature;
              anthropic_api_key := key;
              an_max_tokens := max_tokens |}
   end).

End Models.

(** ** The paths of the recap scripts (p_meeting_recap.py, lines 12-17)

    [os.path.join(a, b)] on POSIX: [b] when it is absolute, else [a] and
    [b] with one separator between them unless [a] is empty or ends with
    one. *)
Definition os_path_join (a b : string) : string :=
  match b with
  | String "/" _ => b
  | _ =>
      match a with
      | EmptyString => b
      | _ =>
          match rfind "/" a with
          | Some i => if decide (S i = String.length a) then a +:+ b
                      else a +:+ "/" +:+ b
          | None => a +:+ "/" +:+ b
          end
      end
  end.

(** [INPUT_FILEPATH] of the scripts, for a transcript called
    [input_filename]. *)
Definition recap_input_filepath (input_filename : string) : string :=
  let PATH := "data/" in
  let OUTPUT_PATH := os_path_join PATH "output" in
  os_path_join OUTPUT_PATH input_filename.

(** * Properties *)

(** ** Chunk computation *)

Section Chunks.
Local Open Scope Z_scope.

Lemma num_chunks_spec (D L : Z) :
  0 <= D -> 0 < L ->
  exists N, num_chunks D L = inr N /\ 0 <= N /\ (N - 1) * L < D <= N * L.
Proof.
  intros HD HL. unfold num_chunks, floordiv, pymod.
  destruct (decide (L = 0)) as [->|_]; [lia|]. cbn.
  pose proof (Z.div_mod D L ltac:(lia)) as Hdm.
  pose proof (Z.mod_pos_bound D L HL) as Hm.
  pose proof (Z.div_pos D L HD HL) as Hq.
  eexists; split; [reflexivity|].
  destruct (decide (D mod L > 0)); nia.
Qed.

Lemma ceiling_unique (D L N : Z) :
  0 < L -> (N - 1) * L < D <= N * L -> N = (D + L - 1) / L.
Proof.
  intros HL [H1 H2].
  apply Z.div_unique with (r := D + L - 1 - L * N); [left|]; nia.
Qed.

Lemma calculate_chunks_eq (D L N : Z) :
  num_chunks D L = inr N ->
  calculate_chunks L (whole D) = inr (map (chunk_at L (whole D)) (range N)).
Proof.
  intros HN. unfold calculate_chunks.
  assert (len (whole D) = D) as -> by (unfold len; cbn; lia).
  rewrite HN. reflexivity.
Qed.

Lemma chunks_lookup (L D N : Z) (i : nat) :
  (i < Z.to_nat N)%nat ->
  map (chunk_at L (whole D)) (range N) !! i = Some (chunk_at L (whole D) i).
Proof.
  intros Hi. unfold range. rewrite list_lookup_fmap.
  rewrite lookup_seq_lt by exact Hi. reflexivity.
Qed.

Lemma chunks_lookup_inv (L D N : Z) (i : nat) (c : AudioSegment) :
  map (chunk_at L (whole D)) (range N) !! i = Some c ->
  (i < Z.to_nat N)%nat /\ c = chunk_at L (whole D) i.
Proof.
  intros H. pose proof (lookup_lt_Some _ _ _ H) as Hlt.
  rewrite length_map in Hlt. unfold range in Hlt. rewrite length_seq in Hlt.
  split; [exact Hlt|]. rewrite chunks_lookup in H by exact Hlt. congruence.
Qed.

Lemma chunk_at_bounds (L D N : Z) (i : nat) :
  0 < L -> (N - 1) * L < D <= N * L -> (i < Z.to_nat N)%nat ->
  chunk_at L (whole D) i =
    {| seg_start := Z.of_nat i * L; seg_stop := Z.min ((Z.of_nat i + 1) * L) D |}.
Proof.
  intros HL HN Hi. unfold chunk_at, getitem, whole, len. cbn.
  f_equal; [|f_equal; lia].
  assert (Z.of_nat i <= N - 1) by lia.
  assert (Z.of_nat i * L <= (N - 1) * L) by nia. lia.
Qed.

(** C1. For a recording of [D >= 0] ms and a chunk length [L > 0], the chunk
    computation of [transcribe_file] returns [N = ceil(D / L)] chunks; chunk
    [i] is the slice from [i * L] to [min ((i + 1) * L, D)]; the slices are
    non-empty, lie in the recording, follow one another without gap, every
    instant of the recording lies in exactly one of them, and the last one
    has length [D - (N - 1) * L]. *)
Theorem chunks_partition_recording (D L : Z) :
  0 <= D -> 0 < L ->
  exists chunks : list AudioSegment,
    calculate_chunks L (whole D) = inr chunks /\
    let N := Z.of_nat (length chunks) in
    (N - 1) * L < D <= N * L /\
    N = (D + L - 1) / L /\
    (forall i : nat, (i < length chunks)%nat ->
       chunks !! i =
         Some {| seg_start := Z.of_nat i * L;
                 seg_stop := Z.min ((Z.of_nat i + 1) * L) D |}) /\
    (forall (i : nat) c, chunks !! i = Some c ->
       0 <= seg_start c < seg_stop c /\ seg_stop c <= D) /\
    (forall (i : nat) c c', chunks !! i = Some c -> chunks !! S i = Some c' ->
       seg_stop c = seg_start c') /\
    (forall t, 0 <= t < D ->
       exists (i : nat) c, chunks !! i = Some c /\ seg_start c <= t < seg_stop c) /\
    (forall (i j : nat) c c' t,
       chunks !! i = Some c -> chunks !! j = Some c' ->
       seg_start c <= t < seg_stop c -> seg_start c' <= t < seg_stop c' -> i = j) /\
    (forall c, last chunks = Some c ->
       seg_stop c = D /\ len c = D - (N - 1) * L).
Proof.
  intros HD HL.
  destruct (num_chunks_spec D L HD HL) as (N & HN & HN0 & Hb).
  exists (map (chunk_at L (whole D)) (range N)).
  split; [apply calculate_chunks_eq, HN|].
  assert (Hlen : Z.of_nat (length (map (chunk_at L (whole D)) (range N))) = N).
  { rewrite length_map. unfold range. rewrite length_seq. lia. }
  cbv zeta. rewrite Hlen.
  assert (Hat : forall (i : nat) c,
            map (chunk_at L (whole D)) (range N) !! i = Some c ->
            (i < Z.to_nat N)%nat /\
            c = {| seg_start := Z.of_nat i * L;
                   seg_stop := Z.min ((Z.of_nat i + 1) * L) D |}).
  { intros i c Hc. apply chunks_lookup_inv in Hc as [Hi ->].
    split; [exact Hi|]. apply chunk_at_bounds with (N := N); assumption. }
  split; [exact Hb|]. split; [apply ceiling_unique; assumption|].
  split.
  { intros i Hi. rewrite chunks_lookup by lia.
    f_equal. apply chunk_at_bounds with (N := N); [assumption..|lia]. }
  split.
  { intros i c Hc. apply Hat in Hc as [Hi ->]. cbn.
    assert (Z.of_nat i * L <= (N - 1) * L) by nia. nia. }
  split.
  { intros i c c' Hc Hc'. apply Hat in Hc as [Hi ->]. apply Hat in Hc' as [Hi' ->].
    cbn. assert (Z.of_nat (S i) * L <= (N - 1) * L) by nia. nia. }
  split.
  { intros t Ht.
    pose proof (Z.div_mod t L ltac:(lia)) as Hdm.
    pose proof (Z.mod_pos_bound t L HL) as Hm.
    assert (Hq : 0 <= t / L) by (apply Z.div_pos; lia).
    assert (HqN : t / L < N) by nia.
    exists (Z.to_nat (t / L)). eexists. split.
    - rewrite chunks_lookup by lia. reflexivity.
    - rewrite (chunk_at_bounds L D N) by (try assumption; lia). cbn.
      rewrite Z2Nat.id by exact Hq. nia. }
  split.
  { intros i j c c' t Hc Hc' Ht Ht'.
    apply Hat in Hc as [Hi ->]. apply Hat in Hc' as [Hj ->]. cbn in Ht, Ht'.
    assert (Z.of_nat i = Z.of_nat j) by nia. lia. }
  intros c Hc. rewrite last_lookup in Hc. apply Hat in Hc as [Hi ->].
  rewrite length_map in *. unfold range in *. rewrite length_seq in *.
  unfold len. cbn.
  replace (Z.of_nat (Init.Nat.pred (Z.to_nat N))) with (N - 1) by lia.
  split; nia.
Qed.

Lemma chunks_partition_recording_witness :
  exists chunks : list AudioSegment,
    calculate_chunks (chunk_length_ms default_transcriber) (whole 1500000) = inr chunks /\
    Z.of_nat (length chunks) = 3.
Proof.
  destruct (chunks_partition_recording 1500000 600000) as (chunks & Hc & _ & HN & _);
    [lia | lia |].
  exists chunks. split; [exact Hc | exact HN].
Defined.

(** C4, as the code has it. The class never rejects a chunk length. A zero
    length makes the chunk computation raise [ZeroDivisionError] before any
    chunk exists; a negative length makes it return no chunk at all, without
    an error. *)
Theorem nonpositive_chunk_length (L D : Z) :
  L <= 0 -> 0 <= D ->
  calculate_chunks L (whole D) =
    if decide (L = 0) then inl ZeroDivisionError else inr [].
Proof.
  intros HL HD. unfold calculate_chunks, num_chunks, floordiv, pymod.
  assert (len (whole D) = D) as -> by (unfold len; cbn; lia).
  destruct (decide (L = 0)) as [->|Hne]; [reflexivity|]. cbn.
  pose proof (Z.div_mod D L Hne) as Hdm.
  pose proof (Z.mod_neg_bound D L ltac:(lia)) as Hm.
  destruct (decide (D mod L > 0)); [lia|].
  unfold range. replace (Z.to_nat (D / L + 0)) with 0%nat by nia. reflexivity.
Qed.

Lemma nonpositive_chunk_length_witness :
  calculate_chunks 0 (whole 1500000) = inl ZeroDivisionError.
Proof.
  apply (nonpositive_chunk_length 0 1500000); lia.
Defined.

(** C4 as stated fails: ten minutes short of zero is accepted by [__init__]
    and the chunk computation on a 25 minute recording returns normally. *)
Lemma negative_chunk_length_accepted :
  let self := init "data/input" "data/output" (-10) 3 in
  chunk_length_ms self <= 0 /\
  calculate_chunks (chunk_length_ms self) (whole 1500000) = inr [] /\
  fst (transcribe_file self demo_env "talk.M4A" demo_world)
    = inr "data/output/talk.txt".
Proof. split; [cbn; lia | split; reflexivity]. Qed.

End Chunks.

(** ** Sorting by key *)

Section SortBy.
Context {A : Type} (key : A -> nat).

Lemma insert_by_perm (x : A) (l : list A) : Permutation (insert_by key x l) (x :: l).
Proof.
  induction l as [|y l IH]; cbn; [reflexivity|].
  destruct (decide (key x <= key y)); [reflexivity|].
  rewrite IH. apply perm_swap.
Qed.

Lemma sort_by_perm (l : list A) : Permutation (sort_by key l) l.
Proof.
  induction l as [|x l IH]; cbn; [reflexivity|].
  rewrite insert_by_perm. constructor. exact IH.
Qed.

Lemma insert_by_sorted (x : A) (l : list A) :
  StronglySorted (key_le key) l -> StronglySorted (key_le key) (insert_by key x l).
Proof.
  induction 1 as [|y l Hl IH Hy]; cbn.
  - repeat constructor.
  - destruct (decide (key x <= key y)) as [Hxy|Hxy].
    + constructor; [constructor; assumption|].
      constructor; [exact Hxy|].
      eapply Forall_impl; [exact Hy|]. unfold key_le. intros; lia.
    + constructor; [exact IH|].
      rewrite (insert_by_perm x l). constructor; [unfold key_le; lia | exact Hy].
Qed.

Lemma sort_by_sorted (l : list A) : StronglySorted (key_le key) (sort_by key l).
Proof.
  induction l as [|x l IH]; cbn; [constructor|].
  apply insert_by_sorted, IH.
Qed.

(** Two sorted arrangements of the same elements are the same list when
    no two elements share a key. *)
Lemma sorted_perm_unique (l1 l2 : list A) :
  NoDup (map key l1) ->
  StronglySorted (key_le key) l1 -> StronglySorted (key_le key) l2 ->
  Permutation l1 l2 -> l1 = l2.
Proof.
  revert l2. induction l1 as [|x l1 IH]; intros l2 Hnd H1 H2 Hp.
  - apply Permutation_nil in Hp. congruence.
  - destruct l2 as [|y l2].
    { symmetry in Hp. apply Permutation_nil in Hp. discriminate. }
    apply StronglySorted_inv in H1 as [H1 Hx].
    apply StronglySorted_inv in H2 as [H2 Hy].
    cbn in Hnd. apply NoDup_cons in Hnd as [Hx_fresh Hnd].
    assert (x = y) as <-.
    { assert (Hyin : In y (x :: l1))
        by (eapply Permutation_in; [symmetry; exact Hp | left; reflexivity]).
      destruct Hyin as [->|Hyin]; [reflexivity|].
      assert (Hxin : In x (y :: l2))
        by (eapply Permutation_in; [exact Hp | left; reflexivity]).
      destruct Hxin as [->|Hxin]; [reflexivity|].
      rewrite List.Forall_forall in Hx, Hy.
      pose proof (Hx _ Hyin) as Hxy. pose proof (Hy _ Hxin) as Hyx.
      unfold key_le in *. exfalso. apply Hx_fresh.
      replace (key x) with (key y) by lia.
      apply list_elem_of_In, in_map, Hyin. }
    f_equal. apply IH; try assumption.
    eapply Permutation_cons_inv, Hp.
Qed.

Lemma sort_by_unique (l sorted : list A) :
  NoDup (map key sorted) -> StronglySorted (key_le key) sorted ->
  Permutation l sorted -> sort_by key l = sorted.
Proof.
  intros Hnd Hs Hp. symmetry.
  apply sorted_perm_unique; [assumption.. | apply sort_by_sorted |].
  rewrite sort_by_perm. symmetry. exact Hp.
Qed.

End SortBy.

(** ** Reassembly *)

Lemma combine_seq_fst {A} (l : list A) (a : nat) :
  map fst (combine (seq a (length l)) l) = seq a (length l).
Proof.
  revert a. induction l as [|x l IH]; intros a; cbn; [reflexivity|].
  f_equal. apply IH.
Qed.

Lemma combine_seq_snd {A} (l : list A) (a : nat) :
  map snd (combine (seq a (length l)) l) = l.
Proof.
  revert a. induction l as [|x l IH]; intros a; cbn; [reflexivity|].
  f_equal. apply IH.
Qed.

Lemma combine_seq_sorted {A} (l : list A) (a : nat) :
  StronglySorted (key_le fst) (combine (seq a (length l)) l).
Proof.
  revert a. induction l as [|x l IH]; intros a; cbn; constructor.
  - apply IH.
  - rewrite List.Forall_forall. intros [i y] Hin.
    apply in_combine_l, in_seq in Hin. unfold key_le. cbn. lia.
Qed.

Lemma enumerate_fst {A} (l : list A) : map fst (enumerate l) = seq 0 (length l).
Proof. apply combine_seq_fst. Qed.

Lemma enumerate_snd {A} (l : list A) : map snd (enumerate l) = l.
Proof. apply combine_seq_snd. Qed.

Lemma sort_by_enumerate {A} (l : list A) (arrived : list (nat * A)) :
  Permutation arrived (enumerate l) -> sort_by fst arrived = enumerate l.
Proof.
  intros Hp. apply sort_by_unique; [| apply combine_seq_sorted | exact Hp].
  rewrite enumerate_fst. apply NoDup_ListNoDup, List.seq_NoDup.
Qed.

Lemma join_concat (sep : string) (texts : list string) :
  join sep texts = String.concat sep texts.
Proof.
  induction texts as [|t texts IH]; [reflexivity|].
  destruct texts as [|t' texts]; [reflexivity|].
  change (t +:+ sep +:+ join sep (t' :: texts)
          = t +:+ sep +:+ String.concat sep (t' :: texts)).
  rewrite IH. reflexivity.
Qed.

Lemma join_newline (texts : list string) :
  join newline texts = String.concat (String "010" EmptyString) texts.
Proof. apply join_concat. Qed.

(** C5. When the collection holds the text of every chunk [0..N-1] once,
    in whatever order the results arrived, reassembly returns the texts in
    index order with one line feed (character 10) between neighbours and
    none at the end; so every arrival order gives the same string, and no
    chunk gives the empty string. *)
Theorem reassembly_order_independent (texts : list string)
    (arrived : list (nat * string)) :
  Permutation arrived (enumerate texts) ->
  sort_and_combine arrived = inr (String.concat (String "010" EmptyString) texts).
Proof.
  intros Hp. unfold sort_and_combine, ret.
  rewrite (sort_by_enumerate texts arrived Hp), enumerate_snd, join_newline.
  reflexivity.
Qed.

Lemma reassembly_order_independent_witness :
  sort_and_combine [(2, "C"); (0, "A"); (1, "B")]
  = inr (String "A" (String "010" (String "B" (String "010" (String "C" EmptyString))))).
Proof.
  apply (reassembly_order_independent ["A"; "B"; "C"]).
  change (Permutation ([(2, "C")] ++ [(0, "A"); (1, "B")])
                      ([(0, "A"); (1, "B")] ++ [(2, "C")])).
  apply Permutation_app_comm.
Defined.

Lemma app_str_assoc (a b c : string) : (a +:+ b) +:+ c = a +:+ b +:+ c.
Proof.
  induction a as [|x a IH]; [reflexivity|].
  change (String x ((a +:+ b) +:+ c) = String x (a +:+ b +:+ c)).
  f_equal. exact IH.
Qed.

Lemma join_snoc (sep : string) (texts : list string) (t : string) :
  join sep (texts ++ [t]) =
    match texts with
    | [] => t
    | _ => join sep texts +:+ sep +:+ t
    end.
Proof.
  induction texts as [|a texts IH]; [reflexivity|].
  destruct texts as [|b texts]; [reflexivity|].
  change (join sep ((a :: b :: texts) ++ [t]))
    with (a +:+ sep +:+ join sep ((b :: texts) ++ [t])).
  rewrite IH.
  change (join sep (a :: b :: texts)) with (a +:+ sep +:+ join sep (b :: texts)).
  rewrite !app_str_assoc. reflexivity.
Qed.

(** ** One call of process_chunk *)

Ltac run_chunk :=
  unfold process_chunk, process_chunk_body, process_chunk_cleanup,
    try_finally, try_except, bindM, export, open_rb, create_transcription,
    path_exists, unlink, tell, throw, pure, emit, set_file, remove_file;
  cbn [fs trace now export_result open_fails service_reply unlink_fails].

Lemma process_chunk_cleanup_eq (self : AudioTranscriber) (ce : chunk_env)
    (i : nat) (w : world) :
  process_chunk_cleanup self ce i w =
    let p := temp_filepath self ce i in
    match fs w !! p with
    | None => (inr tt, w)
    | Some _ =>
        if unlink_fails ce then (inl UnlinkFailure, emit (EvUnlink p) w)
        else (inr tt, remove_file p (emit (EvUnlink p) w))
    end.
Proof.
  run_chunk. destruct (fs w !! temp_filepath self ce i) eqn:E.
  - rewrite bool_decide_eq_true_2 by eauto. cbn. rewrite E. reflexivity.
  - rewrite bool_decide_eq_false_2 by (intros [? ?]; discriminate). reflexivity.
Qed.

Lemma process_chunk_body_eq (self : AudioTranscriber) (ce : chunk_env)
    (chunk : AudioSegment) (i : nat) (w : world) :
  process_chunk_body self ce chunk i w =
    let p := temp_filepath self ce i in
    let w0 := emit (EvExport p) w in
    match export_result ce with
    | Some created =>
        (inl ExportFailure,
         emit (LogChunkError i ExportFailure)
              (if created then set_file p Garbage w0 else w0))
    | None =>
        let w1 := set_file p (Audio (len chunk)) w0 in
        if open_fails ce then (inl OpenFailure, emit (LogChunkError i OpenFailure) w1)
        else
          match service_reply ce with
          | Some text => (inr text, emit (EvServiceCall i) w1)
          | None =>
              (inl ServiceFailure,
               emit (LogChunkError i ServiceFailure) (emit (EvServiceCall i) w1))
          end
    end.
Proof.
  run_chunk. destruct (export_result ce) as [[|]|]; cbn; try reflexivity.
  rewrite lookup_insert_eq.
  destruct (open_fails ce); cbn; [reflexivity|].
  destruct (service_reply ce); reflexivity.
Qed.

(** The temporary file is on disk when the body of a successful export is
    left, whatever the body did afterwards. *)
Lemma process_chunk_body_exported (self : AudioTranscriber) (ce : chunk_env)
    (chunk : AudioSegment) (i : nat) (w : world) :
  export_result ce = None ->
  is_Some (fs (snd (process_chunk_body self ce chunk i w)) !! temp_filepath self ce i).
Proof.
  intros Hex. rewrite process_chunk_body_eq. cbv zeta. rewrite Hex.
  destruct (open_fails ce); [|destruct (service_reply ce)]; cbn;
    rewrite lookup_insert_eq; eauto.
Qed.

Lemma process_chunk_eq (self : AudioTranscriber) (ce : chunk_env)
    (chunk : AudioSegment) (i : nat) (w : world) :
  process_chunk self ce chunk i w =
    let '(r, w1) := process_chunk_body self ce chunk i w in
    match process_chunk_cleanup self ce i w1 with
    | (inl e, w2) => (inl e, w2)
    | (inr _, w2) => (r, w2)
    end.
Proof. reflexivity. Qed.

(** C7, as the code has it. The [finally] clause runs on every exit of the
    body, so when a call of [process_chunk] is left, by a return or by any
    exception, its temporary file is off the disk provided the removal
    itself does not raise. When the removal raises, the file stays and the
    call raises the exception of the removal. (The one other way to find
    no file at the end is an export that failed before creating one, with
    no file there beforehand.) *)
Theorem temp_file_removed_unless_unlink_fails (self : AudioTranscriber)
    (ce : chunk_env) (chunk : AudioSegment) (i : nat) (w : world) :
  let temp := temp_filepath self ce i in
  let after := snd (process_chunk self ce chunk i w) in
  (fs after !! temp = None <->
     unlink_fails ce = false
     \/ (export_result ce = Some false /\ fs w !! temp = None)) /\
  (is_Some (fs after !! temp) ->
     unlink_fails ce = true /\
     fst (process_chunk self ce chunk i w) = inl UnlinkFailure).
Proof.
  cbv zeta. rewrite process_chunk_eq, process_chunk_body_eq. cbv zeta.
  set (p := temp_filepath self ce i).
  destruct (export_result ce) as [[|]|];
    [| | destruct (open_fails ce); [|destruct (service_reply ce)]];
    rewrite process_chunk_cleanup_eq; cbv zeta; fold p;
    cbn [fs emit set_file]; rewrite ?lookup_insert_eq;
    try (destruct (fs w !! p) eqn:Hp);
    destruct (unlink_fails ce); cbn [fst snd fs emit set_file remove_file];
    rewrite ?lookup_insert_eq, ?lookup_delete_eq, ?Hp;
    (split; [split; [intros H; try discriminate; auto
                    | intros [H|[H H']]; try discriminate; reflexivity]
            | intros [x H]; try discriminate; auto]).
Qed.

(** C7 as stated fails: the service call raises, the removal of the
    temporary file raises too, and the file is still on disk when the call
    is left. *)
Lemma temp_file_left_when_unlink_fails :
  fst (process_chunk_body default_transcriber failing_chunk_env
         (whole 600000) 0 demo_world) = inl ServiceFailure /\
  raises (fst (process_chunk default_transcriber failing_chunk_env
                 (whole 600000) 0 demo_world)) /\
  fs (snd (process_chunk default_transcriber failing_chunk_env
             (whole 600000) 0 demo_world))
    !! temp_filepath default_transcriber failing_chunk_env 0
    = Some (Audio 600000).
Proof. split; [reflexivity|]. split; [exact I | reflexivity]. Qed.

(** Whether a call raises does not depend on the world it starts from. *)
Lemma process_chunk_raises_anywhere (self : AudioTranscriber) (ce : chunk_env)
    (chunk : AudioSegment) (i : nat) (w w' : world) :
  raises (fst (process_chunk self ce chunk i w)) ->
  raises (fst (process_chunk self ce chunk i w')).
Proof.
  rewrite !process_chunk_eq.
  destruct (export_result ce) as [created|] eqn:Hex.
  - intros _. rewrite (process_chunk_body_eq self ce chunk i w'). cbv zeta.
    rewrite Hex. rewrite process_chunk_cleanup_eq. cbv zeta.
    repeat case_match; exact I.
  - pose proof (process_chunk_body_exported self ce chunk i w Hex) as [c Hc].
    pose proof (process_chunk_body_exported self ce chunk i w' Hex) as [c' Hc'].
    assert (Hr : fst (process_chunk_body self ce chunk i w)
                 = fst (process_chunk_body self ce chunk i w')).
    { rewrite !process_chunk_body_eq. cbv zeta. rewrite Hex.
      repeat case_match; reflexivity. }
    destruct (process_chunk_body self ce chunk i w) as [r w1].
    destruct (process_chunk_body self ce chunk i w') as [r' w1'].
    cbn in Hc, Hc', Hr. subst r'.
    rewrite !process_chunk_cleanup_eq. cbv zeta. rewrite Hc, Hc'.
    destruct (unlink_fails ce); cbn; trivial.
Qed.

(** C8, as the code has it. When the body of a call raises [e], the handler
    has logged [e]; the call then raises [e] itself unless the removal of
    the temporary file raises, in which case the caller receives the
    failure of the removal and [e] is left in the log only. *)
Theorem cleanup_failure_replaces_error (self : AudioTranscriber) (ce : chunk_env)
    (chunk : AudioSegment) (i : nat) (w w1 : world) (e : exn) :
  process_chunk_body self ce chunk i w = (inl e, w1) ->
  LogChunkError i e ∈ trace w1 /\
  fst (process_chunk self ce chunk i w) =
    inl (if decide (is_Some (fs w1 !! temp_filepath self ce i)
                    /\ unlink_fails ce = true)
         then UnlinkFailure else e).
Proof.
  intros Hbody. split.
  - rewrite process_chunk_body_eq in Hbody. cbv zeta in Hbody.
    repeat case_match; simplify_eq; cbn; set_solver.
  - rewrite process_chunk_eq, Hbody, process_chunk_cleanup_eq. cbv zeta.
    destruct (fs w1 !! temp_filepath self ce i) eqn:E.
    + destruct (unlink_fails ce); cbn.
      * rewrite decide_True by eauto. reflexivity.
      * rewrite decide_False by (intros [_ ?]; discriminate). reflexivity.
    + rewrite decide_False by (intros [[? ?] _]; discriminate). reflexivity.
Qed.

Lemma cleanup_failure_replaces_error_witness :
  let w1 := snd (process_chunk_body default_transcriber failing_chunk_env
                   (whole 600000) 0 demo_world) in
  LogChunkError 0 ServiceFailure ∈ trace w1 /\
  fst (process_chunk default_transcriber failing_chunk_env (whole 600000) 0 demo_world) =
    inl (if decide (is_Some (fs w1 !! temp_filepath default_transcriber failing_chunk_env 0)
                    /\ unlink_fails failing_chunk_env = true)
         then UnlinkFailure else ServiceFailure).
Proof.
  cbv zeta.
  apply (cleanup_failure_replaces_error default_transcriber failing_chunk_env
           (whole 600000) 0 demo_world).
  vm_compute. reflexivity.
Defined.

(** C8 as stated fails: the service call raises, the removal of the
    temporary file raises too, and the caller receives the latter. *)
Lemma cleanup_failure_masks_service_failure :
  fst (process_chunk_body default_transcriber failing_chunk_env
         (whole 600000) 0 demo_world) = inl ServiceFailure /\
  fst (process_chunk default_transcriber failing_chunk_env
         (whole 600000) 0 demo_world) = inl UnlinkFailure.
Proof. split; reflexivity. Qed.

(** ** The output path is no temporary path *)

Lemma length_app_str (a b : string) :
  String.length (a +:+ b) = String.length a + String.length b.
Proof.
  induction a as [|x a IH]; [reflexivity|].
  change (S (String.length (a +:+ b)) = S (String.length a + String.length b)).
  f_equal. exact IH.
Qed.

Lemma app_str_same_length (a b s t : string) :
  a +:+ s = b +:+ t -> String.length s = String.length t -> s = t.
Proof.
  revert b. induction a as [|x a IH]; intros [|y b] Heq Hlen.
  - exact Heq.
  - change ("" +:+ s) with s in Heq. subst s.
    change (String y b +:+ t) with (String y (b +:+ t)) in Hlen.
    cbn in Hlen. rewrite length_app_str in Hlen. lia.
  - change ("" +:+ t) with t in Heq. subst t.
    change (String x a +:+ s) with (String x (a +:+ s)) in Hlen.
    cbn in Hlen. rewrite length_app_str in Hlen. lia.
  - change (String x (a +:+ s) = String y (b +:+ t)) in Heq.
    injection Heq as _ Heq. exact (IH b Heq Hlen).
Qed.

Lemma app_str_empty_r (s : string) : s +:+ "" = s.
Proof.
  induction s as [|a s IH]; [reflexivity|].
  change (String a (s +:+ "") = String a s). f_equal. exact IH.
Qed.

Lemma take_drop_str (i : nat) (s : string) : take_str i s +:+ drop_str i s = s.
Proof.
  revert s. induction i as [|i IH]; intros [|a s]; try reflexivity.
  change (String a (take_str i s +:+ drop_str i s) = String a s).
  f_equal. apply IH.
Qed.

Lemma rfind_cons_None (c a : ascii) (s : string) :
  rfind c (String a s) = None -> a <> c /\ rfind c s = None.
Proof.
  cbn. destruct (rfind c s); [discriminate|].
  destruct (decide (a = c)); [discriminate|]. auto.
Qed.

Lemma rfind_cons_None_2 (c a : ascii) (s : string) :
  a <> c -> rfind c s = None -> rfind c (String a s) = None.
Proof. intros Ha Hs. cbn. rewrite Hs, decide_False by exact Ha. reflexivity. Qed.

Lemma rfind_app_None (c : ascii) (a b : string) :
  rfind c a = None -> rfind c b = None -> rfind c (a +:+ b) = None.
Proof.
  intros Ha Hb. induction a as [|x a IH]; [exact Hb|].
  apply rfind_cons_None in Ha as [Hx Ha].
  change (rfind c (String x (a +:+ b)) = None).
  apply rfind_cons_None_2; [exact Hx | apply IH, Ha].
Qed.

Lemma rfind_take_None (c : ascii) (i : nat) (s : string) :
  rfind c s = None -> rfind c (take_str i s) = None.
Proof.
  revert s. induction i as [|i IH]; intros [|a s] Hs; try reflexivity.
  apply rfind_cons_None in Hs as [Ha Hs]. cbn [take_str].
  apply rfind_cons_None_2; [exact Ha | apply IH, Hs].
Qed.

Lemma rfind_drop_after (c : ascii) (s : string) (i : nat) :
  rfind c s = Some i -> rfind c (drop_str (S i) s) = None.
Proof.
  revert i. induction s as [|a s IH]; intros i Hi; [discriminate|].
  cbn in Hi. destruct (rfind c s) as [j|] eqn:Hj.
  - injection Hi as <-. cbn [drop_str]. apply IH. reflexivity.
  - destruct (decide (a = c)); [|discriminate]. injection Hi as <-.
    destruct s; exact Hj.
Qed.

Lemma path_name_no_separator (p : string) : rfind "/" (path_name p) = None.
Proof.
  unfold path_name. destruct (decide (p = ".")); [reflexivity|].
  destruct (rfind "/" p) as [i|] eqn:Hi; [|exact Hi].
  apply rfind_drop_after, Hi.
Qed.

Lemma path_name_tail (p : string) : exists directory, p = directory +:+ path_name p.
Proof.
  unfold path_name. destruct (decide (p = ".")) as [->|_]; [exists "."; reflexivity|].
  destruct (rfind "/" p) as [i|].
  - exists (take_str (S i) p). symmetry. apply take_drop_str.
  - exists "". reflexivity.
Qed.

Lemma stem_suffix_split (p : string) : stem p +:+ suffix p = path_name p.
Proof.
  unfold stem, suffix. destruct (rfind "." (path_name p)) as [i|].
  - destruct (decide _); [apply take_drop_str | apply app_str_empty_r].
  - apply app_str_empty_r.
Qed.

Lemma stem_no_separator (p : string) : rfind "/" (stem p) = None.
Proof.
  pose proof (path_name_no_separator p) as Hname. unfold stem.
  destruct (rfind "." (path_name p)) as [i|]; [|exact Hname].
  destruct (decide _); [apply rfind_take_None, Hname | exact Hname].
Qed.

(** Decimal numerals hold digits only. *)
Section Numerals.
Context (c : ascii) (Hc : forall x : N, pretty_N_char x <> c).

Lemma pretty_N_go_lacks (x : N) (s : string) :
  rfind c s = None -> rfind c (pretty_N_go x s) = None.
Proof.
  revert s. induction (N.lt_wf_0 x) as [x _ IH]; intros s Hs.
  destruct (decide (x = 0)%N) as [->|Hx]; [rewrite pretty_N_go_0; exact Hs|].
  rewrite pretty_N_go_step by lia.
  apply IH; [apply N.div_lt; lia|].
  apply rfind_cons_None_2; [apply Hc | exact Hs].
Qed.

Lemma pretty_nat_lacks (n : nat) : rfind c (pretty n) = None.
Proof.
  unfold pretty, pretty_nat, pretty, pretty_N.
  destruct (decide (N.of_nat n = 0)%N).
  - apply rfind_cons_None_2; [apply (Hc 0) | reflexivity].
  - apply pretty_N_go_lacks. reflexivity.
Qed.

End Numerals.

Lemma pretty_nat_no_underscore (n : nat) : rfind "_" (pretty n) = None.
Proof.
  apply pretty_nat_lacks. intros x. unfold pretty_N_char.
  repeat case_match; discriminate.
Qed.

Lemma pretty_nat_no_separator (n : nat) : rfind "/" (pretty n) = None.
Proof.
  apply pretty_nat_lacks. intros x. unfold pretty_N_char.
  repeat case_match; discriminate.
Qed.

(** Parsing a name of one part. *)
Lemma split_on_lacks (c : ascii) (s : string) :
  rfind c s = None -> split_on c s = [s].
Proof.
  induction s as [|a s IH]; [reflexivity|]. intros Hs.
  apply rfind_cons_None in Hs as [Ha Hs]. cbn [split_on].
  rewrite decide_False by exact Ha. rewrite (IH Hs). reflexivity.
Qed.

Lemma path_root_lacks (s : string) : rfind "/" s = None -> path_root s = "".
Proof.
  destruct s as [|a s]; [reflexivity|]. intros Hs.
  apply rfind_cons_None in Hs as [Ha _]. cbn [path_root].
  rewrite decide_False by exact Ha. reflexivity.
Qed.

Lemma path_parts_single (name : string) :
  single_component name -> path_parts name = [name].
Proof.
  intros (Hsep & Hne & Hdot). unfold path_parts.
  rewrite (split_on_lacks _ _ Hsep).
  rewrite filter_cons_True by auto. reflexivity.
Qed.

(** Joining a directory and a name of one part puts the name, as it is,
    at the end. *)
Lemma path_join_single (directory name : string) :
  single_component name ->
  path_join directory name = dir_prefix directory +:+ name.
Proof.
  intros Hname. pose proof Hname as (Hsep & Hne & _).
  unfold path_join, dir_prefix, path_str. cbv zeta.
  rewrite (path_root_lacks _ Hsep), decide_True by reflexivity.
  rewrite (path_parts_single _ Hname), join_snoc.
  set (root := path_root directory).
  assert (Hfull : forall prefix, prefix +:+ name <> "").
  { intros prefix Heq. apply (f_equal String.length) in Heq.
    rewrite length_app_str in Heq. destruct name; [congruence | cbn in Heq; lia]. }
  destruct (path_parts directory) as [|part parts].
  - rewrite decide_False by apply Hfull. reflexivity.
  - rewrite <- !app_str_assoc. rewrite decide_False by apply Hfull. reflexivity.
Qed.

Lemma transcript_name_single (p : string) : single_component (stem p +:+ ".txt").
Proof.
  split; [apply rfind_app_None; [apply stem_no_separator | reflexivity]|].
  split; intros Heq; apply (f_equal String.length) in Heq;
    rewrite length_app_str in Heq; cbn in Heq; lia.
Qed.

Lemma temp_filename_single (i t : nat) : single_component (temp_filename i t).
Proof.
  unfold temp_filename. split.
  - repeat (apply rfind_app_None;
            [first [apply pretty_nat_no_separator | reflexivity]|]).
    reflexivity.
  - split; intros Heq; apply (f_equal String.length) in Heq;
      rewrite length_app_str in Heq; cbn in Heq; lia.
Qed.

Lemma output_filepath_eq (self : AudioTranscriber) (input_filename : string) :
  output_filepath self input_filename
    = dir_prefix (output_path self)
      +:+ stem (input_filepath self input_filename) +:+ ".txt".
Proof. apply path_join_single, transcript_name_single. Qed.

Lemma temp_filepath_eq (self : AudioTranscriber) (ce : chunk_env) (i : nat) :
  temp_filepath self ce i
    = dir_prefix (output_path self) +:+ temp_filename i (now ce).
Proof. apply path_join_single, temp_filename_single. Qed.

Lemma output_not_temp (self : AudioTranscriber) (input_filename : string)
    (ce : chunk_env) (i : nat) :
  output_filepath self input_filename <> temp_filepath self ce i.
Proof.
  rewrite output_filepath_eq, temp_filepath_eq. unfold temp_filename. intros Heq.
  rewrite <- !app_str_assoc in Heq.
  apply app_str_same_length in Heq; [discriminate | reflexivity].
Qed.




(** ** Worlds that leave a path alone *)

Lemma untouched_refl (path : string) (w : world) : untouched path w w.
Proof. split; [reflexivity|]. exists []. rewrite app_nil_r. split; [reflexivity|constructor]. Qed.

Lemma untouched_trans (path : string) (w1 w2 w3 : world) :
  untouched path w1 w2 -> untouched path w2 w3 -> untouched path w1 w3.
Proof.
  intros [Hf (evs & Ht & Hn)] [Hf' (evs' & Ht' & Hn')]. split; [congruence|].
  exists (evs ++ evs'). split.
  - rewrite Ht', Ht, app_assoc. reflexivity.
  - apply Forall_app. split; assumption.
Qed.

Lemma untouched_emit (path : string) (ev : event) (w : world) :
  ev <> EvWrite path -> untouched path w (emit ev w).
Proof.
  intros Hev. split; [reflexivity|]. exists [ev]. split; [reflexivity|].
  constructor; [exact Hev | constructor].
Qed.

Lemma untouched_set_file (path other : string) (c : content) (w : world) :
  path <> other -> untouched path w (set_file other c w).
Proof.
  intros Hne. split; [cbn; apply lookup_insert_ne; congruence|].
  exists []. cbn. rewrite app_nil_r. split; [reflexivity|constructor].
Qed.

Lemma untouched_remove_file (path other : string) (w : world) :
  path <> other -> untouched path w (remove_file other w).
Proof.
  intros Hne. split; [cbn; apply lookup_delete_ne; congruence|].
  exists []. cbn. rewrite app_nil_r. split; [reflexivity|constructor].
Qed.

Ltac untouched_steps :=
  repeat first
    [ apply untouched_refl
    | eapply untouched_trans;
        [| first [ apply untouched_emit; discriminate
                 | apply untouched_set_file; assumption
                 | apply untouched_remove_file; assumption ] ] ].

Lemma process_chunk_untouched (self : AudioTranscriber) (ce : chunk_env)
    (chunk : AudioSegment) (i : nat) (w : world) (path : string) :
  path <> temp_filepath self ce i ->
  untouched path w (snd (process_chunk self ce chunk i w)).
Proof.
  intros Hne. rewrite process_chunk_eq, process_chunk_body_eq. cbv zeta.
  destruct (export_result ce) as [[|]|];
    [| | destruct (open_fails ce); [|destruct (service_reply ce)]];
    rewrite process_chunk_cleanup_eq; cbv zeta;
    match goal with |- context [fs ?w1 !! ?p] => destruct (fs w1 !! p) end;
    try destruct (unlink_fails ce); cbn [snd]; untouched_steps.
Qed.

(** ** The pool *)

(** The futures of the submitted tasks: one per task, in the same order,
    each holding the outcome of its call of [process_chunk]. *)
Lemma run_tasks_spec (self : AudioTranscriber) (env : run_env)
    (tasks : list (nat * AudioSegment)) (w : world) :
  exists futures w',
    run_tasks self env tasks w = (inr futures, w') /\
    Forall2 (fun task future =>
               fst future = fst task /\
               exists w0, snd future =
                 fst (process_chunk self (chunk_envs env (fst task))
                                    (snd task) (fst task) w0))
            tasks futures /\
    forall path, not_temp self path -> untouched path w w'.
Proof.
  revert w. induction tasks as [|[i chunk] tasks IH]; intros w.
  - exists [], w. split; [reflexivity|]. split; [constructor|].
    intros; apply untouched_refl.
  - cbn [run_tasks]. unfold bindM at 1. unfold as_future.
    pose proof (fun path (H : not_temp self path) =>
                  process_chunk_untouched self (chunk_envs env i)
                    chunk i w path (H _ _)) as Hone.
    destruct (process_chunk self (chunk_envs env i) chunk i w) as [r w1] eqn:Hpc.
    destruct (IH w1) as (futures & w' & Hrun & Hall & Hframe).
    exists ((i, r) :: futures), w'.
    unfold bindM. rewrite Hrun. split; [reflexivity|]. split.
    + constructor; [|exact Hall]. split; [reflexivity|].
      exists w. cbn. rewrite Hpc. reflexivity.
    + intros path Hpath. eapply untouched_trans; [apply Hone, Hpath|].
      apply Hframe, Hpath.
Qed.

Lemma collect_untouched (completed : list (nat * result string))
    (acc : list (nat * string)) (w : world) (path : string) :
  untouched path w (snd (collect completed acc w)).
Proof.
  revert acc w. induction completed as [|[i [e|t]] rest IH]; intros acc w.
  - apply untouched_refl.
  - cbn. apply untouched_emit. discriminate.
  - cbn [collect]. unfold bindM, try_except, lift, pure. cbn. apply IH.
Qed.

Lemma collect_raises (completed : list (nat * result string))
    (acc : list (nat * string)) (w : world) :
  Exists (fun future => raises (snd future)) completed ->
  raises (fst (collect completed acc w)).
Proof.
  intros Hex. revert acc w.
  induction completed as [|[i [e|t]] rest IH]; intros acc w.
  - inversion Hex.
  - exact I.
  - cbn [collect]. unfold bindM, try_except, lift, pure. cbn. apply IH.
    inversion Hex as [? ? H|]; subst; [destruct H | assumption].
Qed.

Lemma collect_returns (completed : list (nat * result string))
    (acc ts : list (nat * string)) (w w' : world) :
  collect completed acc w = (inr ts, w') ->
  map fst ts = map fst acc ++ map fst completed.
Proof.
  revert acc w. induction completed as [|[i [e|t]] rest IH]; intros acc w H.
  - cbn in H. injection H as <- _. rewrite app_nil_r. reflexivity.
  - discriminate H.
  - cbn [collect] in H. unfold bindM, try_except, lift, pure in H. cbn in H.
    apply IH in H. rewrite H, map_app, <- app_assoc. reflexivity.
Qed.

Lemma in_enumerate {A} (l : list A) (k : nat) (x : A) :
  l !! k = Some x -> In (k, x) (enumerate l).
Proof.
  unfold enumerate. change k with (0 + k) at 2. generalize 0 as a.
  revert k. induction l as [|y l IH]; intros k a Hk; [discriminate|].
  destruct k as [|k]; cbn in *.
  - injection Hk as ->. left. f_equal. lia.
  - right. replace (a + S k) with (S a + k) by lia. apply IH, Hk.
Qed.

Lemma as_completed_perm {A} (env : run_env) (submitted : list (nat * A)) :
  Permutation (as_completed env submitted) submitted.
Proof. apply sort_by_perm. Qed.

Lemma Forall2_In_l {A B} (R : A -> B -> Prop) (l : list A) (l' : list B) (x : A) :
  Forall2 R l l' -> In x l -> exists y, In y l' /\ R x y.
Proof.
  induction 1 as [|a b l l' Hab _ IH]; intros Hin; [destruct Hin|].
  destruct Hin as [->|Hin].
  - exists b. split; [left; reflexivity | exact Hab].
  - destruct (IH Hin) as (y & Hy & HR). exists y. split; [right; exact Hy | exact HR].
Qed.

Lemma Forall2_map_fst {A B} (l : list (nat * A)) (l' : list (nat * B))
    (P : nat * A -> nat * B -> Prop) :
  Forall2 (fun a b => fst b = fst a /\ P a b) l l' -> map fst l' = map fst l.
Proof.
  induction 1 as [|a b l l' [Hab _] _ IH]; cbn; [reflexivity|]. congruence.
Qed.

Lemma process_in_parallel_untouched (self : AudioTranscriber) (env : run_env)
    (chunks : list AudioSegment) (w : world) (path : string) :
  not_temp self path ->
  untouched path w (snd (process_in_parallel self env chunks w)).
Proof.
  intros Hpath. unfold process_in_parallel.
  destruct (decide (max_workers self <= 0)%Z); [apply untouched_refl|].
  destruct (run_tasks_spec self env (as_completed env (enumerate chunks)) w)
    as (futures & w1 & Hrun & _ & Hframe).
  unfold bindM. rewrite Hrun.
  eapply untouched_trans; [apply Hframe, Hpath | apply collect_untouched].
Qed.

Lemma process_in_parallel_raises (self : AudioTranscriber) (env : run_env)
    (chunks : list AudioSegment) (w w0 : world) (k : nat) (c : AudioSegment) :
  chunks !! k = Some c ->
  raises (fst (process_chunk self (chunk_envs env k) c k w0)) ->
  raises (fst (process_in_parallel self env chunks w)).
Proof.
  intros Hk Hfail. unfold process_in_parallel.
  destruct (decide (max_workers self <= 0)%Z); [exact I|].
  destruct (run_tasks_spec self env (as_completed env (enumerate chunks)) w)
    as (futures & w1 & Hrun & Hall & _).
  unfold bindM. rewrite Hrun. apply collect_raises.
  assert (Hin : In (k, c) (as_completed env (enumerate chunks))).
  { eapply Permutation_in; [symmetry; apply as_completed_perm|].
    apply in_enumerate, Hk. }
  destruct (Forall2_In_l _ _ _ _ Hall Hin) as ([i r] & Hr & _ & w0' & Hout).
  cbn in Hout. subst r.
  apply List.Exists_exists. eexists. split; [exact Hr|]. cbn.
  eapply process_chunk_raises_anywhere, Hfail.
Qed.

Lemma process_in_parallel_returns (self : AudioTranscriber) (env : run_env)
    (chunks : list AudioSegment) (w w' : world) (ts : list (nat * string)) :
  process_in_parallel self env chunks w = (inr ts, w') ->
  Permutation (map fst ts) (seq 0 (length chunks)).
Proof.
  unfold process_in_parallel.
  destruct (decide (max_workers self <= 0)%Z); [discriminate|].
  destruct (run_tasks_spec self env (as_completed env (enumerate chunks)) w)
    as (futures & w1 & Hrun & Hall & _).
  unfold bindM. rewrite Hrun. intros Hc.
  apply collect_returns in Hc. cbn in Hc. rewrite Hc.
  rewrite (Forall2_map_fst _ _ _ Hall).
  rewrite <- (enumerate_fst chunks).
  apply Permutation_map, as_completed_perm.
Qed.

(** ** transcribe_file *)

Lemma transcribe_file_body_eq (self : AudioTranscriber) (env : run_env)
    (input_filename : string) (w : world) :
  transcribe_file_body self env input_filename w =
    let input := input_filepath self input_filename in
    let output := output_filepath self input_filename in
    match fs w !! input with
    | None => (inl FileNotFoundError, w)
    | Some c =>
        if bool_decide (lower (suffix input) ∉ supported_formats)
        then (inl UnsupportedFormat, w)
        else
          let w1 := emit (EvDecode input) w in
          match c with
          | Audio D =>
              match calculate_chunks (chunk_length_ms self) (whole D) with
              | inl e => (inl e, w1)
              | inr chunks =>
                  match process_in_parallel self env chunks w1 with
                  | (inl e, w2) => (inl e, w2)
                  | (inr transcriptions, w2) =>
                      match sort_and_combine transcriptions with
                      | inl e => (inl e, w2)
                      | inr text =>
                          match write_text env output text w2 with
                          | (inl e, w3) => (inl e, w3)
                          | (inr _, w3) => (inr output, w3)
                          end
                      end
                  end
              end
          | _ => (inl DecodeFailure, w1)
          end
    end.
Proof.
  unfold transcribe_file_body, validate_audio_file, path_exists, from_file,
    bindM, lift, throw, pure.
  cbv zeta.
  destruct (fs w !! input_filepath self input_filename) as [c|] eqn:Hfile.
  - rewrite bool_decide_eq_true_2 by eauto. cbn [negb].
    destruct (bool_decide _); [reflexivity|].
    cbn beta iota. rewrite Hfile.
    destruct c as [D| |]; reflexivity.
  - rewrite bool_decide_eq_false_2 by (intros [? ?]; discriminate). reflexivity.
Qed.

Lemma transcribe_file_eq (self : AudioTranscriber) (env : run_env)
    (input_filename : string) (w : world) :
  transcribe_file self env input_filename w =
    match transcribe_file_body self env input_filename w with
    | (inl e, w') => (inl e, emit (LogTranscriptionFailed e) w')
    | (inr path, w') => (inr path, w')
    end.
Proof. reflexivity. Qed.

(** C2. When the call of [process_chunk] for some chunk [k] of the
    recording raises, [transcribe_file] raises, and it neither changes nor
    writes the output file, whatever the other chunks returned. *)
Theorem chunk_failure_aborts (self : AudioTranscriber) (env : run_env)
    (input_filename : string) (w w0 : world) (D : Z)
    (chunks : list AudioSegment) (k : nat) (c : AudioSegment) :
  fs w !! input_filepath self input_filename = Some (Audio D) ->
  calculate_chunks (chunk_length_ms self) (whole D) = inr chunks ->
  chunks !! k = Some c ->
  raises (fst (process_chunk self (chunk_envs env k) c k w0)) ->
  raises (fst (transcribe_file self env input_filename w)) /\
  untouched (output_filepath self input_filename) w
            (snd (transcribe_file self env input_filename w)).
Proof.
  intros Hfile Hchunks Hk Hfail.
  rewrite transcribe_file_eq, transcribe_file_body_eq. cbv zeta.
  rewrite Hfile, Hchunks.
  destruct (bool_decide _).
  { cbn. split; [exact I | apply untouched_emit; discriminate]. }
  set (w1 := emit (EvDecode (input_filepath self input_filename)) w).
  pose proof (process_in_parallel_raises self env chunks w1 w0 k c Hk Hfail) as Hr.
  pose proof (process_in_parallel_untouched self env chunks w1
                (output_filepath self input_filename)
                (fun ce i => output_not_temp self input_filename ce i)) as Hu.
  destruct (process_in_parallel self env chunks w1) as [[e|ts] w2]; [|destruct Hr].
  cbn [fst snd]. split; [exact I|].
  apply untouched_trans with (w2 := w1);
    [subst w1; apply untouched_emit; discriminate|].
  apply untouched_trans with (w2 := w2); [exact Hu|].
  apply untouched_emit. discriminate.
Qed.

Lemma chunk_failure_aborts_witness :
  raises (fst (transcribe_file default_transcriber failing_env "talk.M4A" demo_world)) /\
  untouched (output_filepath default_transcriber "talk.M4A") demo_world
    (snd (transcribe_file default_transcriber failing_env "talk.M4A" demo_world)).
Proof.
  apply (chunk_failure_aborts default_transcriber failing_env "talk.M4A"
           demo_world demo_world 1500000
           [mkSeg 0 600000; mkSeg 600000 1200000; mkSeg 1200000 1500000]
           1 (mkSeg 600000 1200000)).
  - reflexivity.
  - reflexivity.
  - reflexivity.
  - vm_compute. exact I.
Defined.

(** C3, as the code has it. Reassembly checks nothing: for every
    collection, complete or not, it returns the texts arranged by
    non-decreasing index and joined by single line feeds. The collection
    that [transcribe_file] hands to it holds every index of the chunks
    exactly once, since the loop has raised otherwise. *)
Theorem reassembly_input_complete (self : AudioTranscriber) (env : run_env)
    (chunks : list AudioSegment) (w w' : world)
    (transcriptions : list (nat * string)) :
  process_in_parallel self env chunks w = (inr transcriptions, w') ->
  Permutation (map fst transcriptions) (seq 0 (length chunks)) /\
  forall any : list (nat * string),
    exists sorted,
      Permutation sorted any /\
      StronglySorted (fun a b => fst a <= fst b) sorted /\
      sort_and_combine any
        = inr (String.concat (String "010" EmptyString) (map snd sorted)).
Proof.
  intros Hrun. split.
  - eapply process_in_parallel_returns, Hrun.
  - intros any. exists (sort_by fst any). split; [apply sort_by_perm|].
    split; [apply (sort_by_sorted fst)|].
    unfold sort_and_combine, ret. rewrite join_newline. reflexivity.
Qed.

Lemma reassembly_input_complete_witness :
  Permutation [2; 1; 0] (seq 0 3) /\
  forall any : list (nat * string),
    exists sorted,
      Permutation sorted any /\
      StronglySorted (fun a b => fst a <= fst b) sorted /\
      sort_and_combine any
        = inr (String.concat (String "010" EmptyString) (map snd sorted)).
Proof.
  apply (reassembly_input_complete default_transcriber demo_env
           [mkSeg 0 600000; mkSeg 600000 1200000; mkSeg 1200000 1500000]
           demo_world
           (snd (process_in_parallel default_transcriber demo_env
                   [mkSeg 0 600000; mkSeg 600000 1200000; mkSeg 1200000 1500000]
                   demo_world))
           [(2, "C"); (1, "B"); (0, "A")]).
  vm_compute. reflexivity.
Defined.

(** C3 as stated fails: the collection lacks index 1 of three and
    reassembly returns a transcript. *)
Lemma incomplete_results_accepted :
  ~ Permutation (map fst [(2, "C"); (0, "A")]) (seq 0 3) /\
  (1 ∉ map fst [(2, "C"); (0, "A")]) /\
  sort_and_combine [(2, "C"); (0, "A")]
    = inr (String "A" (String "010" (String "C" EmptyString))).
Proof.
  split; [|split].
  - intros Hp. apply Permutation_length in Hp. discriminate.
  - cbn. intros Hin. repeat (apply elem_of_cons in Hin as [Hin|Hin]; [discriminate|]).
    inversion Hin.
  - reflexivity.
Qed.

(** C6, as the code has it. The existence test comes first: a path that
    does not exist raises [FileNotFoundError] whatever its extension, and a
    path that exists with an extension outside the supported set, compared
    in lower case, raises the [ValueError] of the format test. In both
    cases [transcribe_file] has done nothing but log the failure: no
    decoding, no export, no call of the service. *)
Theorem invalid_input_rejected (self : AudioTranscriber) (env : run_env)
    (input_filename : string) (w : world) :
  let input := input_filepath self input_filename in
  fs w !! input = None \/ lower (suffix input) ∉ supported_formats ->
  let e := if decide (fs w !! input = None)
           then FileNotFoundError else UnsupportedFormat in
  validate_audio_file input w = (inl e, w) /\
  transcribe_file self env input_filename w
    = (inl e, emit (LogTranscriptionFailed e) w).
Proof.
  intros input Hbad e. subst e.
  rewrite transcribe_file_eq, transcribe_file_body_eq. cbv zeta. fold input.
  unfold validate_audio_file, path_exists, bindM, throw, pure.
  destruct (fs w !! input) as [c|] eqn:Hfile.
  - rewrite decide_False by discriminate.
    destruct Hbad as [Hbad|Hbad]; [discriminate|].
    rewrite bool_decide_eq_true_2 by eauto. cbn [negb].
    rewrite bool_decide_eq_true_2 by exact Hbad. split; reflexivity.
  - rewrite decide_True by reflexivity.
    rewrite bool_decide_eq_false_2 by (intros [? ?]; discriminate).
    split; reflexivity.
Qed.

Lemma xyz_unsupported : lower (suffix "data/input/clip.xyz") ∉ supported_formats.
Proof. apply (bool_decide_unpack _). vm_compute. exact I. Qed.

Lemma invalid_input_rejected_witness :
  validate_audio_file "data/input/clip.xyz" clip_world
    = (inl UnsupportedFormat, clip_world) /\
  transcribe_file default_transcriber demo_env "clip.xyz" clip_world
    = (inl UnsupportedFormat,
       emit (LogTranscriptionFailed UnsupportedFormat) clip_world).
Proof.
  apply (invalid_input_rejected default_transcriber demo_env "clip.xyz" clip_world).
  right. apply (bool_decide_unpack _). vm_compute. exact I.
Defined.

(** C6 as stated fails: [clip.xyz] has no supported extension, yet where
    no such file exists the error is [FileNotFoundError], not the error of
    the format test. *)
Lemma missing_file_hides_unsupported_format :
  (lower (suffix (input_filepath default_transcriber "clip.xyz")) ∉ supported_formats) /\
  fst (transcribe_file default_transcriber demo_env "clip.xyz" demo_world)
    = inl FileNotFoundError /\
  fst (transcribe_file default_transcriber demo_env "clip.xyz" demo_world)
    <> inl UnsupportedFormat.
Proof.
  split; [exact xyz_unsupported|]. split; [reflexivity | discriminate].
Qed.

(** C10. A recording of 0 ms, under a chunk length other than zero and a
    positive worker count: [transcribe_file] decodes the file, calls the
    service for no chunk, writes the empty string to the output file and
    returns the output path. *)
Theorem empty_recording_writes_empty_file (self : AudioTranscriber)
    (env : run_env) (input_filename : string) (w : world) :
  let input := input_filepath self input_filename in
  let output := output_filepath self input_filename in
  fs w !! input = Some (Audio 0) ->
  lower (suffix input) ∈ supported_formats ->
  chunk_length_ms self <> 0%Z ->
  (0 < max_workers self)%Z ->
  write_result env = None ->
  transcribe_file self env input_filename w =
    (inr output,
     {| fs := <[output := Text ""]> (fs w);
        trace := trace w ++ [EvDecode input; EvWrite output] |}).
Proof.
  intros input output Hfile Hext HL Hworkers Hwrite.
  rewrite transcribe_file_eq, transcribe_file_body_eq. cbv zeta.
  fold input output. rewrite Hfile.
  rewrite bool_decide_eq_false_2 by (intros Hn; exact (Hn Hext)).
  assert (Hchunks : calculate_chunks (chunk_length_ms self) (whole 0) = inr []).
  { unfold calculate_chunks, num_chunks, floordiv, pymod.
    change (len (whole 0)) with 0%Z.
    rewrite !decide_False by exact HL. cbn.
    rewrite Z.div_0_l, Z.mod_0_l by exact HL. reflexivity. }
  rewrite Hchunks. unfold process_in_parallel.
  rewrite decide_False by lia. cbn.
  unfold write_text. rewrite Hwrite. cbn.
  unfold set_file, emit. cbn. rewrite <- app_assoc. reflexivity.
Qed.

Lemma empty_recording_writes_empty_file_witness :
  transcribe_file default_transcriber demo_env "empty.wav" silent_world =
    (inr "data/output/empty.txt",
     {| fs := <["data/output/empty.txt" := Text ""]> (fs silent_world);
        trace := [EvDecode "data/input/empty.wav"; EvWrite "data/output/empty.txt"] |}).
Proof.
  apply (empty_recording_writes_empty_file default_transcriber demo_env
           "empty.wav" silent_world).
  - reflexivity.
  - apply (bool_decide_unpack _). vm_compute. exact I.
  - discriminate.
  - reflexivity.
  - reflexivity.
Defined.

(** * Further properties of the code *)

(** ** One call of process_chunk, continued *)

Lemma process_chunk_answers_iff (self : AudioTranscriber) (ce : chunk_env)
    (chunk : AudioSegment) (i : nat) (w : world) (text : string) :
  fst (process_chunk self ce chunk i w) = inr text <-> answers ce text.
Proof.
  unfold answers.
  rewrite process_chunk_eq, process_chunk_body_eq. cbv zeta.
  destruct (export_result ce) as [created|] eqn:Hex.
  - rewrite process_chunk_cleanup_eq. cbv zeta.
    split; [|intros [? _]; discriminate].
    repeat case_match; cbn; discriminate.
  - destruct (open_fails ce) eqn:Hop; [|destruct (service_reply ce) as [t|] eqn:Hsv];
      rewrite process_chunk_cleanup_eq; cbv zeta; cbn [fs emit set_file];
      rewrite lookup_insert_eq; destruct (unlink_fails ce); cbn;
      split; intros H; try discriminate; try (destruct H as (? & ? & ? & ?); congruence).
    injection H as ->. auto.
Qed.

(** A call returns a text exactly when the export, the opening, the
    service call and the removal of the temporary file all succeed; the
    text is the reply of the service. *)
Theorem process_chunk_returns_iff (self : AudioTranscriber) (ce : chunk_env)
    (chunk : AudioSegment) (i : nat) (w : world) (text : string) :
  fst (process_chunk self ce chunk i w) = inr text <-> answers ce text.
Proof. exact (process_chunk_answers_iff self ce chunk i w text). Qed.

Lemma process_chunk_deletes_temp (self : AudioTranscriber) (ce : chunk_env)
    (chunk : AudioSegment) (i : nat) (w : world) :
  fst (process_chunk self ce chunk i w) <> inl UnlinkFailure ->
  fs (snd (process_chunk self ce chunk i w))
    = delete (temp_filepath self ce i) (fs w).
Proof.
  rewrite process_chunk_eq, process_chunk_body_eq. cbv zeta.
  set (p := temp_filepath self ce i).
  destruct (export_result ce) as [[|]|];
    [| | destruct (open_fails ce); [|destruct (service_reply ce)]];
    rewrite process_chunk_cleanup_eq; cbv zeta; fold p;
    cbn [fs emit set_file]; rewrite ?lookup_insert_eq;
    try (destruct (fs w !! p) eqn:Hp);
    destruct (unlink_fails ce); cbn; intros Hne; try congruence;
    rewrite ?delete_insert_eq; try reflexivity.
  all: symmetry; apply delete_id; exact Hp.
Qed.

(** Unless the removal of the temporary file fails, a call leaves the file
    system as it found it, less the file at its temporary path. *)
Theorem process_chunk_file_system (self : AudioTranscriber) (ce : chunk_env)
    (chunk : AudioSegment) (i : nat) (w : world) :
  fst (process_chunk self ce chunk i w) <> inl UnlinkFailure ->
  fs (snd (process_chunk self ce chunk i w))
    = delete (temp_filepath self ce i) (fs w).
Proof. exact (process_chunk_deletes_temp self ce chunk i w). Qed.

Lemma process_chunk_file_system_witness :
  fs (snd (process_chunk default_transcriber (demo_chunk_env 0) (whole 600000) 0
             demo_world))
    = delete (temp_filepath default_transcriber (demo_chunk_env 0) 0) (fs demo_world).
Proof.
  apply (process_chunk_file_system default_transcriber (demo_chunk_env 0)
           (whole 600000) 0 demo_world).
  vm_compute. discriminate.
Defined.

Lemma process_chunk_calls_once (self : AudioTranscriber) (ce : chunk_env)
    (chunk : AudioSegment) (i : nat) (w : world) :
  service_calls (trace (snd (process_chunk self ce chunk i w)))
    = service_calls (trace w) ++ (if reaches_service ce then [i] else []).
Proof.
  unfold reaches_service.
  rewrite process_chunk_eq, process_chunk_body_eq. cbv zeta.
  set (p := temp_filepath self ce i).
  destruct (export_result ce) as [[|]|];
    [| | destruct (open_fails ce); [|destruct (service_reply ce)]];
    rewrite process_chunk_cleanup_eq; cbv zeta; fold p;
    cbn [fs emit set_file]; rewrite ?lookup_insert_eq;
    try (destruct (fs w !! p) eqn:Hp);
    destruct (unlink_fails ce); cbn [snd trace emit remove_file set_file];
    unfold service_calls; rewrite ?omap_app; cbn;
    rewrite ?app_nil_r; reflexivity.
Qed.

(** A call calls the service once when the export and the opening of the
    exported file succeed, and not at all otherwise; it never calls it for
    another chunk or a second time. *)
Theorem process_chunk_service_calls (self : AudioTranscriber) (ce : chunk_env)
    (chunk : AudioSegment) (i : nat) (w : world) :
  service_calls (trace (snd (process_chunk self ce chunk i w)))
    = service_calls (trace w) ++ (if reaches_service ce then [i] else []).
Proof. exact (process_chunk_calls_once self ce chunk i w). Qed.

(** ** Temporary file names *)





(** A string is cut in one way only at the first occurrence of a
    character. *)
Lemma app_str_cut_unique (c : ascii) (a b r r' : string) :
  rfind c a = None -> rfind c b = None ->
  a +:+ String c r = b +:+ String c r' -> a = b /\ r = r'.
Proof.
  revert b. induction a as [|x a IH]; intros [|y b] Ha Hb Heq.
  - injection Heq as ->. auto.
  - apply rfind_cons_None in Hb as [Hy _].
    change (String c r = String y (b +:+ String c r')) in Heq. congruence.
  - apply rfind_cons_None in Ha as [Hx _].
    change (String x (a +:+ String c r) = String c r') in Heq. congruence.
  - apply rfind_cons_None in Ha as [_ Ha]. apply rfind_cons_None in Hb as [_ Hb].
    change (String x (a +:+ String c r) = String y (b +:+ String c r')) in Heq.
    injection Heq as -> Heq. destruct (IH b Ha Hb Heq) as [-> ->]. auto.
Qed.

Lemma app_str_cancel_r (a b s : string) : a +:+ s = b +:+ s -> a = b.
Proof.
  revert b. induction a as [|x a IH]; intros [|y b] Heq.
  - reflexivity.
  - apply (f_equal String.length) in Heq.
    change ("" +:+ s) with s in Heq.
    change (String y b +:+ s) with (String y (b +:+ s)) in Heq.
    cbn in Heq. rewrite length_app_str in Heq. lia.
  - apply (f_equal String.length) in Heq.
    change ("" +:+ s) with s in Heq.
    change (String x a +:+ s) with (String x (a +:+ s)) in Heq.
    cbn in Heq. rewrite length_app_str in Heq. lia.
  - change (String x (a +:+ s) = String y (b +:+ s)) in Heq.
    injection Heq as -> Heq. f_equal. apply IH, Heq.
Qed.

Lemma temp_filepath_eq_iff (self : AudioTranscriber) (ce ce' : chunk_env)
    (i j : nat) :
  temp_filepath self ce i = temp_filepath self ce' j <->
  i = j /\ now ce = now ce'.
Proof.
  split; [|intros [-> Hnow]; unfold temp_filepath; rewrite Hnow; reflexivity].
  rewrite !temp_filepath_eq. unfold temp_filename. intros Heq.
  repeat apply String.app_inj in Heq.
  apply (app_str_cut_unique "_") in Heq as [Hi Ht];
    [| apply pretty_nat_no_underscore..].
  apply app_str_cancel_r in Ht.
  split; eapply pretty_nat_inj; eassumption.
Qed.

(** The name of a temporary file tells the chunk index and the clock
    reading it was built from: two calls share a temporary file only when
    they are for the same chunk index in the same second. *)
Theorem temp_filepath_inj (self : AudioTranscriber) (ce ce' : chunk_env)
    (i j : nat) :
  temp_filepath self ce i = temp_filepath self ce' j <->
  i = j /\ now ce = now ce'.
Proof. exact (temp_filepath_eq_iff self ce ce' i j). Qed.

(** ** The pool, continued *)

Lemma unlink_ok_not_unlink_failure (self : AudioTranscriber) (ce : chunk_env)
    (chunk : AudioSegment) (i : nat) (w : world) :
  unlink_fails ce = false ->
  fst (process_chunk self ce chunk i w) <> inl UnlinkFailure.
Proof.
  intros Hul. rewrite process_chunk_eq, process_chunk_body_eq. cbv zeta.
  destruct (export_result ce) as [[|]|];
    [| | destruct (open_fails ce); [|destruct (service_reply ce)]];
    rewrite process_chunk_cleanup_eq; cbv zeta; rewrite Hul;
    repeat case_match; cbn; discriminate.
Qed.

Lemma run_tasks_clears (self : AudioTranscriber) (env : run_env)
    (tasks : list (nat * AudioSegment)) (w : world) (k : nat) :
  unlink_fails (chunk_envs env k) = false ->
  In k (map fst tasks) \/ fs w !! temp_filepath self (chunk_envs env k) k = None ->
  fs (snd (run_tasks self env tasks w)) !! temp_filepath self (chunk_envs env k) k
    = None.
Proof.
  intros Hul. revert w. induction tasks as [|[i chunk] tasks IH]; intros w Hk.
  - destruct Hk as [[]|Hk]. exact Hk.
  - cbn [run_tasks]. unfold bindM at 1. unfold as_future.
    destruct (process_chunk self (chunk_envs env i) chunk i w) as [r w1] eqn:Hpc.
    assert (Hw1 : In k (map fst tasks)
                  \/ fs w1 !! temp_filepath self (chunk_envs env k) k = None).
    { destruct (decide (i = k)) as [->|Hik].
      - right. replace w1 with (snd (process_chunk self (chunk_envs env k) chunk k w))
          by (rewrite Hpc; reflexivity).
        rewrite process_chunk_deletes_temp
          by (apply unlink_ok_not_unlink_failure, Hul).
        apply lookup_delete_eq.
      - destruct Hk as [[Hk|Hk]|Hk]; [cbn in Hk; congruence | left; exact Hk |].
        right. replace w1 with (snd (process_chunk self (chunk_envs env i) chunk i w))
          by (rewrite Hpc; reflexivity).
        destruct (process_chunk_untouched self (chunk_envs env i) chunk i w
                    (temp_filepath self (chunk_envs env k) k)) as [-> _];
          [|exact Hk].
        intros Heq. apply temp_filepath_eq_iff in Heq as [Heq _]. congruence. }
    specialize (IH w1 Hw1).
    unfold bindM. destruct (run_tasks self env tasks w1) as [[e|futures] w2];
      exact IH.
Qed.

(** When the pool is left, no chunk whose removal did not fail has its
    temporary file on disk, whether the batch returned or raised. *)
Theorem pool_removes_temp_files (self : AudioTranscriber) (env : run_env)
    (chunks : list AudioSegment) (w : world) (k : nat) :
  (0 < max_workers self)%Z ->
  k < length chunks ->
  unlink_fails (chunk_envs env k) = false ->
  fs (snd (process_in_parallel self env chunks w))
    !! temp_filepath self (chunk_envs env k) k = None.
Proof.
  intros Hworkers Hk Hul. unfold process_in_parallel.
  rewrite decide_False by lia.
  pose proof (run_tasks_clears self env (as_completed env (enumerate chunks)) w k Hul)
    as Hclear.
  destruct (run_tasks_spec self env (as_completed env (enumerate chunks)) w)
    as (futures & w1 & Hrun & _ & _).
  unfold bindM. rewrite Hrun in *. cbn [snd] in Hclear.
  destruct (collect_untouched futures [] w1
              (temp_filepath self (chunk_envs env k) k)) as [-> _].
  apply Hclear. left.
  apply (Permutation_in (l := map fst (enumerate chunks)));
    [apply Permutation_map; symmetry; apply as_completed_perm|].
  rewrite enumerate_fst. apply in_seq. lia.
Qed.

Lemma pool_removes_temp_files_witness :
  fs (snd (process_in_parallel default_transcriber failing_env
             [mkSeg 0 600000; mkSeg 600000 1200000; mkSeg 1200000 1500000]
             demo_world))
    !! temp_filepath default_transcriber (chunk_envs failing_env 2) 2 = None.
Proof.
  apply (pool_removes_temp_files default_transcriber failing_env
           [mkSeg 0 600000; mkSeg 600000 1200000; mkSeg 1200000 1500000]
           demo_world 2).
  - reflexivity.
  - cbn. lia.
  - reflexivity.
Defined.

Lemma run_tasks_service_calls (self : AudioTranscriber) (env : run_env)
    (tasks : list (nat * AudioSegment)) (w : world) :
  service_calls (trace (snd (run_tasks self env tasks w)))
    = service_calls (trace w)
      ++ filter (fun i => reaches_service (chunk_envs env i)) (map fst tasks).
Proof.
  revert w. induction tasks as [|[i chunk] tasks IH]; intros w.
  - cbn. rewrite app_nil_r. reflexivity.
  - cbn [run_tasks]. unfold bindM at 1. unfold as_future.
    pose proof (process_chunk_calls_once self (chunk_envs env i) chunk i w) as Hone.
    destruct (process_chunk self (chunk_envs env i) chunk i w) as [r w1].
    cbn [snd] in Hone. specialize (IH w1).
    unfold bindM, pure. destruct (run_tasks self env tasks w1) as [[e|futures] w2];
      cbn [snd] in *; rewrite IH, Hone, <- app_assoc; f_equal;
      cbn [map fst]; rewrite filter_cons;
      destruct (reaches_service (chunk_envs env i)); cbn;
      try (rewrite decide_True by exact I); try (rewrite decide_False by tauto);
      reflexivity.
Qed.

Lemma collect_service_calls (completed : list (nat * result string))
    (acc : list (nat * string)) (w : world) :
  service_calls (trace (snd (collect completed acc w))) = service_calls (trace w).
Proof.
  revert acc w. induction completed as [|[i [e|t]] rest IH]; intros acc w.
  - reflexivity.
  - cbn. unfold service_calls. rewrite omap_app. cbn. apply app_nil_r.
  - cbn [collect]. unfold bindM, try_except, lift, pure. cbn. apply IH.
Qed.

(** Under a positive worker count the pool calls the service exactly once
    for every chunk whose export and opening succeed, and for no other:
    a failure seen by the loop stops no submitted call, and no call is
    repeated. *)
Theorem pool_service_calls (self : AudioTranscriber) (env : run_env)
    (chunks : list AudioSegment) (w : world) :
  (0 < max_workers self)%Z ->
  Permutation
    (service_calls (trace (snd (process_in_parallel self env chunks w))))
    (service_calls (trace w)
     ++ filter (fun i => reaches_service (chunk_envs env i))
               (seq 0 (length chunks))).
Proof.
  intros Hworkers. unfold process_in_parallel. rewrite decide_False by lia.
  pose proof (run_tasks_service_calls self env
                (as_completed env (enumerate chunks)) w) as Hcalls.
  destruct (run_tasks_spec self env (as_completed env (enumerate chunks)) w)
    as (futures & w1 & Hrun & _ & _).
  unfold bindM. rewrite Hrun in *. cbn [snd] in Hcalls.
  rewrite collect_service_calls, Hcalls.
  apply Permutation_app_head.
  rewrite <- (enumerate_fst chunks).
  apply filter_Permutation, Permutation_map, as_completed_perm.
Qed.

Lemma pool_service_calls_witness :
  Permutation
    (service_calls (trace (snd (process_in_parallel default_transcriber failing_env
       [mkSeg 0 600000; mkSeg 600000 1200000; mkSeg 1200000 1500000] demo_world))))
    (service_calls (trace demo_world)
     ++ filter (fun i => reaches_service (chunk_envs failing_env i)) (seq 0 3)).
Proof.
  apply (pool_service_calls default_transcriber failing_env
           [mkSeg 0 600000; mkSeg 600000 1200000; mkSeg 1200000 1500000] demo_world).
  reflexivity.
Defined.

Lemma collect_raises_inv (completed : list (nat * result string))
    (acc : list (nat * string)) (w w' : world) (e : exn) :
  collect completed acc w = (inl e, w') ->
  exists before i after,
    completed = before ++ (i, inl e) :: after /\
    Forall (fun future => exists text, snd future = inr text) before.
Proof.
  revert acc w. induction completed as [|[i [e0|t]] rest IH]; intros acc w H.
  - discriminate H.
  - cbn in H. injection H as -> _. exists [], i, rest. split; [reflexivity|constructor].
  - cbn [collect] in H. unfold bindM, try_except, lift, pure in H. cbn in H.
    destruct (IH _ _ H) as (before & k & after & -> & Hall).
    exists ((i, inr t) :: before), k, after. split; [reflexivity|].
    constructor; [eexists; reflexivity | exact Hall].
Qed.

(** When the batch raises, it raises the exception of the first failed
    future in the order in which [as_completed] yields the futures (which
    need not be the order in which the calls failed): every future yielded
    before it had returned a text. *)
Theorem pool_raises_first_failure (self : AudioTranscriber) (env : run_env)
    (chunks : list AudioSegment) (w w' : world) (e : exn) :
  (0 < max_workers self)%Z ->
  process_in_parallel self env chunks w = (inl e, w') ->
  exists before k c after w0,
    as_completed env (enumerate chunks) = before ++ (k, c) :: after /\
    Forall (fun task => exists text, answers (chunk_envs env (fst task)) text) before /\
    fst (process_chunk self (chunk_envs env k) c k w0) = inl e.
Proof.
  intros Hworkers. unfold process_in_parallel. rewrite decide_False by lia.
  destruct (run_tasks_spec self env (as_completed env (enumerate chunks)) w)
    as (futures & w1 & Hrun & Hall & _).
  unfold bindM. rewrite Hrun. intros Hc.
  apply collect_raises_inv in Hc as (fbefore & i & fafter & -> & Hok).
  apply Forall2_app_inv_r in Hall as (before & rest & Hbefore & Hrest & Heq).
  apply Forall2_cons_inv_r in Hrest as ([k c] & after & [Hik (w0 & Hout)] & _ & ->).
  cbn in Hik, Hout. subst i.
  exists before, k, c, after, w0. split; [exact Heq|]. split; [|congruence].
  clear Heq Hrun. induction Hbefore as [|task fut before fbefore [_ (w2 & Hfut)] _ IH];
    [constructor|].
  apply Forall_cons in Hok as [[text Htext] Hok].
  constructor; [|apply IH, Hok].
  exists text. eapply process_chunk_answers_iff. rewrite <- Hfut. exact Htext.
Qed.

Lemma pool_raises_first_failure_witness :
  exists before k c after w0,
    as_completed failing_env
      (enumerate [mkSeg 0 600000; mkSeg 600000 1200000; mkSeg 1200000 1500000])
      = before ++ (k, c) :: after /\
    Forall (fun task => exists text, answers (chunk_envs failing_env (fst task)) text)
           before /\
    fst (process_chunk default_transcriber (chunk_envs failing_env k) c k w0)
      = inl ServiceFailure.
Proof.
  apply (pool_raises_first_failure default_transcriber failing_env
           [mkSeg 0 600000; mkSeg 600000 1200000; mkSeg 1200000 1500000]
           demo_world
           (snd (process_in_parallel default_transcriber failing_env
                   [mkSeg 0 600000; mkSeg 600000 1200000; mkSeg 1200000 1500000]
                   demo_world))).
  - reflexivity.
  - vm_compute. reflexivity.
Defined.

(** ** A run in which every chunk is answered *)

Lemma run_tasks_all_answer (self : AudioTranscriber) (env : run_env)
    (tasks : list (nat * AudioSegment)) (w : world) :
  Forall (fun task => exists text, answers (chunk_envs env (fst task)) text) tasks ->
  exists w',
    run_tasks self env tasks w
      = (inr (map (fun task => (fst task, inr (reply env (fst task)))) tasks), w') /\
    forall path, not_temp self path -> untouched path w w'.
Proof.
  intros Hans.
  destruct (run_tasks_spec self env tasks w) as (futures & w' & Hrun & Hall & Hframe).
  exists w'. split; [|exact Hframe]. rewrite Hrun. do 2 f_equal.
  clear Hrun Hframe.
  induction Hall as [|task [i r] tasks futures [Hi (w0 & Hr)] _ IH]; [reflexivity|].
  apply Forall_cons in Hans as [[text Htext] Hans].
  cbn [map]. f_equal; [|apply IH, Hans].
  cbn in Hi, Hr. subst i. f_equal. rewrite Hr.
  pose proof Htext as (_ & _ & Hreply & _).
  unfold reply. rewrite Hreply. cbn.
  apply process_chunk_answers_iff, Htext.
Qed.

Lemma collect_all_returned {A} (g : nat -> string) (tasks : list (nat * A))
    (acc : list (nat * string)) (w : world) :
  collect (map (fun task => (fst task, inr (g (fst task)))) tasks) acc w
    = (inr (acc ++ map (fun task => (fst task, g (fst task))) tasks), w).
Proof.
  revert acc. induction tasks as [|task tasks IH]; intros acc.
  - cbn. rewrite app_nil_r. reflexivity.
  - cbn [map collect]. unfold bindM, try_except, lift, pure. cbn.
    rewrite IH, <- app_assoc. reflexivity.
Qed.

Lemma map_combine_seq {A} (g : nat -> string) (l : list A) (a : nat) :
  map (fun task : nat * A => (fst task, g (fst task))) (combine (seq a (length l)) l)
    = combine (seq a (length l)) (map g (seq a (length l))).
Proof.
  revert a. induction l as [|x l IH]; intros a; [reflexivity|].
  cbn. f_equal. apply IH.
Qed.

Lemma pool_all_answer (self : AudioTranscriber) (env : run_env)
    (chunks : list AudioSegment) (w : world) :
  (0 < max_workers self)%Z ->
  (forall i, i < length chunks -> exists text, answers (chunk_envs env i) text) ->
  exists transcriptions w',
    process_in_parallel self env chunks w = (inr transcriptions, w') /\
    sort_and_combine transcriptions
      = inr (join newline (map (reply env) (seq 0 (length chunks)))) /\
    forall path, not_temp self path -> untouched path w w'.
Proof.
  intros Hworkers Hans. unfold process_in_parallel. rewrite decide_False by lia.
  set (tasks := as_completed env (enumerate chunks)).
  assert (Hperm : Permutation tasks (enumerate chunks)) by apply as_completed_perm.
  destruct (run_tasks_all_answer self env tasks w) as (w' & Hrun & Hframe).
  { rewrite List.Forall_forall. intros [i c] Hin. cbn. apply Hans.
    eapply Permutation_in in Hin; [|exact Hperm].
    apply in_combine_l, in_seq in Hin. lia. }
  unfold bindM. rewrite Hrun, collect_all_returned. cbn [app].
  eexists _, w'. split; [reflexivity|]. split; [|exact Hframe].
  unfold sort_and_combine, ret. do 2 f_equal.
  set (texts := map (reply env) (seq 0 (length chunks))).
  assert (Hlen : length texts = length chunks)
    by (unfold texts; rewrite length_map, length_seq; reflexivity).
  rewrite (sort_by_enumerate texts).
  - apply enumerate_snd.
  - rewrite (Permutation_map _ Hperm). unfold enumerate.
    rewrite map_combine_seq, Hlen. reflexivity.
Qed.

(** When the input is a supported, decodable file, the worker count is
    positive, every chunk is exported, opened, answered and cleaned up, and
    the output can be written, [transcribe_file] returns the output path,
    the output file holds the replies of the service in chunk order with
    one line feed (character 10) between neighbours, whatever the order in
    which the futures were yielded, and no other file, the temporary ones
    apart, has changed. *)
Theorem transcribe_file_success (self : AudioTranscriber) (env : run_env)
    (input_filename : string) (w : world) (D : Z) (chunks : list AudioSegment) :
  let input := input_filepath self input_filename in
  let output := output_filepath self input_filename in
  fs w !! input = Some (Audio D) ->
  lower (suffix input) ∈ supported_formats ->
  calculate_chunks (chunk_length_ms self) (whole D) = inr chunks ->
  (0 < max_workers self)%Z ->
  (forall i, i < length chunks -> exists text, answers (chunk_envs env i) text) ->
  write_result env = None ->
  fst (transcribe_file self env input_filename w) = inr output /\
  fs (snd (transcribe_file self env input_filename w)) !! output
    = Some (Text (String.concat (String "010" EmptyString)
                    (map (reply env) (seq 0 (length chunks))))) /\
  forall path, path <> output -> not_temp self path ->
    fs (snd (transcribe_file self env input_filename w)) !! path = fs w !! path.
Proof.
  intros input output Hfile Hext Hchunks Hworkers Hans Hwrite.
  rewrite transcribe_file_eq, transcribe_file_body_eq. cbv zeta.
  fold input output. rewrite Hfile, Hchunks.
  rewrite bool_decide_eq_false_2 by (intros Hn; exact (Hn Hext)).
  destruct (pool_all_answer self env chunks (emit (EvDecode input) w) Hworkers Hans)
    as (ts & w' & -> & -> & Hframe).
  unfold write_text. rewrite Hwrite. cbn.
  split; [reflexivity|]. split; [rewrite lookup_insert_eq, join_newline; reflexivity|].
  intros path Hne Htemp. rewrite lookup_insert_ne by congruence.
  destruct (Hframe path Htemp) as [-> _]. reflexivity.
Qed.

Lemma transcribe_file_success_witness :
  fst (transcribe_file default_transcriber demo_env "talk.M4A" demo_world)
    = inr "data/output/talk.txt" /\
  fs (snd (transcribe_file default_transcriber demo_env "talk.M4A" demo_world))
    !! "data/output/talk.txt"
    = Some (Text (String "A" (String "010" (String "B" (String "010"
                   (String "C" EmptyString)))))) /\
  forall path, path <> "data/output/talk.txt" -> not_temp default_transcriber path ->
    fs (snd (transcribe_file default_transcriber demo_env "talk.M4A" demo_world)) !! path
      = fs demo_world !! path.
Proof.
  apply (transcribe_file_success default_transcriber demo_env "talk.M4A" demo_world
           1500000 [mkSeg 0 600000; mkSeg 600000 1200000; mkSeg 1200000 1500000]).
  - reflexivity.
  - apply (bool_decide_unpack _). vm_compute. exact I.
  - reflexivity.
  - reflexivity.
  - intros i Hi. exists (reply demo_env i).
    destruct i as [|[|[|i]]]; [repeat split.. | cbn in Hi; lia].
  - reflexivity.
Defined.

(** ** transcribe_file, continued *)

(** Whatever makes [transcribe_file] raise, short of a failure of the
    final write itself, the output file is neither changed nor written. *)
Theorem transcribe_file_failure_keeps_output (self : AudioTranscriber)
    (env : run_env) (input_filename : string) (w : world) (e : exn) :
  fst (transcribe_file self env input_filename w) = inl e ->
  e <> WriteFailure ->
  untouched (output_filepath self input_filename) w
            (snd (transcribe_file self env input_filename w)).
Proof.
  rewrite transcribe_file_eq, transcribe_file_body_eq. cbv zeta.
  set (output := output_filepath self input_filename).
  set (input := input_filepath self input_filename).
  destruct (fs w !! input) as [c|].
  2:{ cbn. intros _ _. apply untouched_emit. discriminate. }
  destruct (bool_decide _).
  { cbn. intros _ _. apply untouched_emit. discriminate. }
  assert (Hdec : untouched output w (emit (EvDecode input) w))
    by (apply untouched_emit; discriminate).
  destruct c as [D| |];
    try (cbn; intros _ _; eapply untouched_trans; [exact Hdec|];
         apply untouched_emit; discriminate).
  destruct (calculate_chunks (chunk_length_ms self) (whole D)) as [e0|chunks].
  { cbn. intros _ _. eapply untouched_trans; [exact Hdec|].
    apply untouched_emit; discriminate. }
  pose proof (process_in_parallel_untouched self env chunks
                (emit (EvDecode input) w) output
                (fun ce i => output_not_temp self input_filename ce i)) as Hpool.
  destruct (process_in_parallel self env chunks (emit (EvDecode input) w))
    as [[e0|ts] w2]; cbn [snd] in Hpool.
  { cbn. intros _ _. eapply untouched_trans; [exact Hdec|].
    eapply untouched_trans; [exact Hpool|]. apply untouched_emit; discriminate. }
  unfold sort_and_combine, ret, write_text.
  destruct (write_result env) as [truncated|]; cbn; [|discriminate].
  intros [= <-] Hne. congruence.
Qed.

Lemma transcribe_file_failure_keeps_output_witness :
  untouched (output_filepath default_transcriber "clip.xyz") clip_world
    (snd (transcribe_file default_transcriber demo_env "clip.xyz" clip_world)).
Proof.
  apply (transcribe_file_failure_keeps_output default_transcriber demo_env
           "clip.xyz" clip_world UnsupportedFormat).
  - vm_compute. reflexivity.
  - discriminate.
Defined.

Lemma universal_newlines_plain (s : string) :
  rfind "013" s = None -> universal_newlines s = s.
Proof.
  induction s as [|c s IH]; [reflexivity|]. intros Hs.
  apply rfind_cons_None in Hs as [Hc Hs]. cbn [universal_newlines].
  rewrite decide_False by exact Hc. f_equal. apply IH, Hs.
Qed.

Lemma universal_newlines_no_return (s : string) :
  rfind "013" (universal_newlines s) = None.
Proof.
  cut (rfind "013" (universal_newlines s) = None /\
       forall c, rfind "013" (universal_newlines (String c s)) = None);
    [intros [H _]; exact H|].
  induction s as [|a s [IH1 IH2]].
  - split; [reflexivity|]. intros c. cbn [universal_newlines].
    destruct (decide (c = "013"%char)); [reflexivity|].
    apply rfind_cons_None_2; [assumption | reflexivity].
  - split; [apply IH2|]. intros c.
    change (universal_newlines (String c (String a s)))
      with (if decide (c = "013"%char)
            then if decide (a = "010"%char)
                 then String "010"%char (universal_newlines s)
                 else String "010"%char (universal_newlines (String a s))
            else String c (universal_newlines (String a s))).
    destruct (decide (c = "013"%char)); [destruct (decide (a = "010"%char))|];
      apply rfind_cons_None_2; try discriminate; auto.
Qed.

(** Whenever [transcribe_file] returns, the path it returns is the output
    path, the file there holds text, and [read_transcript_file] reads that
    text from it with every carriage return, alone or before a line feed,
    turned into a line feed: the text read holds no carriage return, and
    it is exactly the text of the file when that holds none. *)
Theorem transcript_read_back (self : AudioTranscriber) (env : run_env)
    (input_filename : string) (w : world) (path : string) :
  fst (transcribe_file self env input_filename w) = inr path ->
  let after := snd (transcribe_file self env input_filename w) in
  path = output_filepath self input_filename /\
  exists text read,
    fs after !! path = Some (Text text) /\
    read_transcript_file path after = (inr read, after) /\
    read = universal_newlines text /\
    rfind "013" read = None /\
    (rfind "013" text = None -> read = text).
Proof.
  rewrite transcribe_file_eq, transcribe_file_body_eq. cbv zeta.
  set (output := output_filepath self input_filename).
  destruct (fs w !! input_filepath self input_filename) as [c|]; [|discriminate].
  destruct (bool_decide _); [discriminate|].
  destruct c as [D| |]; try discriminate.
  destruct (calculate_chunks (chunk_length_ms self) (whole D)) as [e0|chunks];
    [discriminate|].
  destruct (process_in_parallel self env chunks _) as [[e0|ts] w2]; [discriminate|].
  unfold sort_and_combine, ret, write_text.
  destruct (write_result env) as [truncated|]; cbn; [discriminate|].
  intros [= <-]. split; [reflexivity|].
  eexists _, _. unfold read_transcript_file. cbn.
  rewrite lookup_insert_eq. split; [reflexivity|]. split; [reflexivity|].
  split; [reflexivity|]. split; [apply universal_newlines_no_return|].
  apply universal_newlines_plain.
Qed.

Lemma transcript_read_back_witness :
  let after := snd (transcribe_file default_transcriber demo_env "talk.M4A" demo_world) in
  "data/output/talk.txt" = output_filepath default_transcriber "talk.M4A" /\
  exists text read,
    fs after !! "data/output/talk.txt" = Some (Text text) /\
    read_transcript_file "data/output/talk.txt" after = (inr read, after) /\
    read = universal_newlines text /\
    rfind "013" read = None /\
    (rfind "013" text = None -> read = text).
Proof.
  apply (transcript_read_back default_transcriber demo_env "talk.M4A" demo_world).
  vm_compute. reflexivity.
Defined.

(** ** validate_audio_file *)

(** [validate_audio_file] changes nothing, never returns [False], and
    returns [True] exactly for an existing path whose extension, in lower
    case, is one of the five supported ones. *)
Theorem validate_audio_file_accepts (filepath : string) (w : world) :
  snd (validate_audio_file filepath w) = w /\
  fst (validate_audio_file filepath w) <> inr false /\
  (fst (validate_audio_file filepath w) = inr true <->
   is_Some (fs w !! filepath) /\ lower (suffix filepath) ∈ supported_formats).
Proof.
  unfold validate_audio_file, path_exists, bindM, throw, pure.
  destruct (fs w !! filepath) as [c|].
  - rewrite bool_decide_eq_true_2 by eauto. cbn [negb].
    destruct (decide (lower (suffix filepath) ∈ supported_formats)) as [Hin|Hout].
    + rewrite bool_decide_eq_false_2 by (intros Hn; exact (Hn Hin)). cbn.
      split; [reflexivity|]. split; [discriminate|]. split; eauto.
    + rewrite bool_decide_eq_true_2 by exact Hout. cbn.
      split; [reflexivity|]. split; [discriminate|].
      split; [discriminate | intros [_ Hin]; contradiction].
  - rewrite bool_decide_eq_false_2 by (intros [? ?]; discriminate). cbn.
    split; [reflexivity|]. split; [discriminate|].
    split; [discriminate | intros [[? ?] _]; discriminate].
Qed.

(** ** Names and paths *)





Lemma length_lower (s : string) : String.length (lower s) = String.length s.
Proof. induction s as [|a s IH]; cbn; [reflexivity|]. f_equal. exact IH. Qed.

Lemma app_str_one_longer (a b s t : string) :
  a +:+ s = b +:+ t -> String.length s = S (String.length t) ->
  exists c, s = String c t.
Proof.
  revert b. induction a as [|x a IH]; intros [|y b] Heq Hlen.
  - change (s = t) in Heq. subst s. lia.
  - change (s = String y (b +:+ t)) in Heq. subst s.
    cbn in Hlen. rewrite length_app_str in Hlen.
    destruct b as [|z b]; [|cbn in Hlen; lia]. exists y. reflexivity.
  - change (String x (a +:+ s) = t) in Heq. subst t.
    cbn in Hlen. rewrite length_app_str in Hlen. lia.
  - change (String x (a +:+ s) = String y (b +:+ t)) in Heq.
    injection Heq as _ Heq. exact (IH b Heq Hlen).
Qed.

(** The transcript is never written over the audio it was made from: for
    an input that passes the format test, the output path differs from the
    input path, whatever the two directories are. *)
Theorem output_is_not_input (self : AudioTranscriber) (input_filename : string) :
  lower (suffix (input_filepath self input_filename)) ∈ supported_formats ->
  output_filepath self input_filename <> input_filepath self input_filename.
Proof.
  intros Hext Heq.
  set (input := input_filepath self input_filename) in *.
  destruct (path_name_tail input) as [directory Hdir].
  rewrite <- (stem_suffix_split input) in Hdir.
  rewrite output_filepath_eq in Heq. fold input in Heq.
  rewrite Hdir in Heq at 2.
  rewrite <- !app_str_assoc in Heq.
  pose proof (length_lower (suffix input)) as Hlen.
  unfold supported_formats in Hext. set_unfold in Hext.
  destruct Hext as [[[[Hs|Hs]|Hs]|Hs]|Hs]; rewrite Hs in Hlen; cbn in Hlen.
  1-4: apply app_str_same_length in Heq; [|cbn; lia];
       rewrite <- Heq in Hs; discriminate Hs.
  symmetry in Heq. apply app_str_one_longer in Heq as [c Hc]; [|cbn; lia].
  rewrite Hc in Hs. discriminate Hs.
Qed.

Lemma output_is_not_input_witness :
  output_filepath (init "data" "data" 10 3) "talk.MP3"
    <> input_filepath (init "data" "data" 10 3) "talk.MP3".
Proof.
  apply (output_is_not_input (init "data" "data" 10 3) "talk.MP3").
  apply (bool_decide_unpack _). vm_compute. exact I.
Defined.

(** ** Chunk lengths *)

Section ChunkLengths.
Local Open Scope Z_scope.

Lemma total_len_app (l1 l2 : list AudioSegment) :
  total_len (l1 ++ l2) = total_len l1 + total_len l2.
Proof.
  unfold total_len. induction l1 as [|c l1 IH]; cbn; [reflexivity|].
  rewrite IH. lia.
Qed.

Lemma total_len_prefix (L D N : Z) (m : nat) :
  0 <= D -> 0 < L -> (N - 1) * L < D <= N * L -> (m <= Z.to_nat N)%nat ->
  total_len (map (chunk_at L (whole D)) (seq 0 m)) = Z.min (Z.of_nat m * L) D.
Proof.
  intros HD HL HN. induction m as [|m IH]; intros Hm.
  - cbn. lia.
  - rewrite seq_S, map_app, total_len_app, IH by lia. cbn [map Nat.add].
    rewrite (chunk_at_bounds L D N) by (try assumption; lia).
    unfold total_len, len. cbn.
    assert (Z.of_nat m * L <= (N - 1) * L) by nia. lia.
Qed.

(** For a recording of [D >= 0] ms and a chunk length [L > 0] the lengths
    of the chunks add up to [D]; every chunk is between 1 and [L] ms long
    and every chunk but the last is exactly [L] ms long. *)
Theorem chunk_lengths (D L : Z) (chunks : list AudioSegment) :
  0 <= D -> 0 < L ->
  calculate_chunks L (whole D) = inr chunks ->
  total_len chunks = D /\
  Forall (fun c => 0 < len c <= L) chunks /\
  forall (i : nat) c,
    (S i < length chunks)%nat -> chunks !! i = Some c -> len c = L.
Proof.
  intros HD HL Hchunks.
  destruct (num_chunks_spec D L HD HL) as (N & HN & HN0 & Hb).
  rewrite (calculate_chunks_eq D L N HN) in Hchunks. injection Hchunks as <-.
  split; [|split].
  - unfold range. rewrite (total_len_prefix L D N) by (try assumption; lia). lia.
  - apply Forall_lookup_2. intros i c Hc.
    apply chunks_lookup_inv in Hc as [Hi ->].
    rewrite (chunk_at_bounds L D N) by assumption. unfold len. cbn.
    assert (Z.of_nat i * L <= (N - 1) * L) by nia. lia.
  - intros i c Hlen Hc. apply chunks_lookup_inv in Hc as [Hi ->].
    rewrite length_map in Hlen. unfold range in Hlen. rewrite length_seq in Hlen.
    rewrite (chunk_at_bounds L D N) by assumption. unfold len. cbn.
    assert (Z.of_nat (S i) * L <= (N - 1) * L) by nia. lia.
Qed.

Lemma chunk_lengths_witness :
  total_len [mkSeg 0 600000; mkSeg 600000 1200000; mkSeg 1200000 1500000] = 1500000 /\
  Forall (fun c => 0 < len c <= 600000)
         [mkSeg 0 600000; mkSeg 600000 1200000; mkSeg 1200000 1500000] /\
  forall (i : nat) c,
    (S i < length [mkSeg 0 600000; mkSeg 600000 1200000; mkSeg 1200000 1500000])%nat ->
    [mkSeg 0 600000; mkSeg 600000 1200000; mkSeg 1200000 1500000] !! i = Some c ->
    len c = 600000.
Proof.
  apply (chunk_lengths 1500000 600000); [lia | lia | reflexivity].
Defined.

End ChunkLengths.

(** ** The constructors of langchain_utils.py *)

Section ModelProperties.
Context {float : Type}.
Implicit Types (env : gmap string string) (temperature : float).

Lemma model_classes_lookup (model_name : string) :
  model_classes !! model_name =
    if decide (model_name = "gpt-4") then Some ["gpt-4"]
    else if decide (model_name = "gpt-4-1106-preview") then Some ["gpt-4"]
    else if decide (model_name = "gpt-3.5-turbo") then Some ["gpt-35-turbo"]
    else if decide (model_name = "gpt-3.5-turbo-1106") then Some ["gpt-35-turbo"]
    else None.
Proof.
  unfold model_classes.
  repeat (case_decide; [subst; reflexivity|]).
  rewrite !lookup_insert_ne by congruence. apply lookup_singleton_ne. congruence.
Qed.

(** [get_llm_azure] raises the [ValueError] of the name test exactly for
    the names outside its four, and does so whatever the settings hold: the
    name is tested before any setting is read. *)
Theorem get_llm_azure_rejects env (model_name : string) temperature
    (max_tokens request_timeout : Z) :
  get_llm_azure env model_name temperature max_tokens request_timeout
    = inl (UnsupportedModelName model_name) <->
  model_name ∉ ["gpt-4"; "gpt-4-1106-preview"; "gpt-3.5-turbo"; "gpt-3.5-turbo-1106"].
Proof.
  unfold get_llm_azure, get_secret_value. cbv zeta.
  rewrite model_classes_lookup. set_unfold. split.
  - intros H Hin.
    destruct Hin as [->|[->|[->|[->|[]]]]];
      repeat (case_decide; [|congruence]); try congruence;
      cbn in H; repeat case_match; congruence.
  - intros Hnot.
    rewrite !decide_False by (intros ->; apply Hnot; tauto). reflexivity.
Qed.

(** A client that [get_llm_azure] returns is deployed as [gpt-4] for the
    two GPT-4 names and as [gpt-35-turbo] for the two GPT-3.5 names, under
    the fixed API version, with the temperature and the token limit it was
    asked for. *)
Theorem get_llm_azure_deployment env (model_name : string) temperature
    (max_tokens request_timeout : Z) (llm : AzureChatOpenAI) :
  get_llm_azure env model_name temperature max_tokens request_timeout = inr llm ->
  (azure_deployment llm = "gpt-4"
     /\ model_name ∈ ["gpt-4"; "gpt-4-1106-preview"]
   \/ azure_deployment llm = "gpt-35-turbo"
     /\ model_name ∈ ["gpt-3.5-turbo"; "gpt-3.5-turbo-1106"]) /\
  api_version llm = "2023-12-01-preview" /\
  az_temperature llm = temperature /\ az_max_tokens llm = max_tokens.
Proof.
  unfold get_llm_azure, get_secret_value. cbv zeta.
  rewrite model_classes_lookup. set_unfold.
  intros Hllm.
  repeat case_decide; subst; cbn in Hllm; repeat case_match;
    try discriminate; injection Hllm as <-; cbn; naive_solver.
Qed.

(** A client that [get_llm_anthropic] returns is built for one of its
    three models: the one asked for when it is among them, with nothing
    printed, and [claude-3-opus-20240229] otherwise, with one line
    printed. *)
Theorem get_llm_anthropic_model env (model_name : string) temperature
    (max_tokens request_timeout : Z) (llm : ChatAnthropic) :
  snd (get_llm_anthropic env model_name temperature max_tokens request_timeout)
    = inr llm ->
  model llm ∈ models /\
  (model_name ∈ models ->
     model llm = model_name /\
     fst (get_llm_anthropic env model_name temperature max_tokens request_timeout) = []) /\
  (model_name ∉ models ->
     model llm = "claude-3-opus-20240229" /\
     length (fst (get_llm_anthropic env model_name temperature max_tokens
                    request_timeout)) = 1).
Proof.
  unfold get_llm_anthropic, get_secret_value.
  destruct (decide (model_name ∈ models)) as [Hin|Hout].
  - rewrite bool_decide_eq_false_2 by (intros Hn; exact (Hn Hin)). cbn.
    destruct (env !! "anthropic_api_key"); [|discriminate].
    intros [= <-]. cbn. split; [exact Hin|]. split; [auto | contradiction].
  - rewrite bool_decide_eq_true_2 by exact Hout. cbn.
    destruct (env !! "anthropic_api_key"); [|discriminate].
    intros [= <-]. cbn. split; [unfold models; set_solver|].
    split; [contradiction | auto].
Qed.

(** Under the settings object of [env_config.py], which has the attribute
    [openai_api_key] and no other, [get_llm_azure] and [get_llm_anthropic]
    return for no model name: the first raises the [ValueError] of its name
    test or the [AttributeError] of [env.azure_openai_api_type], the second
    the [AttributeError] of [env.anthropic_api_key]. *)
Theorem undeclared_settings_raise (openai_api_key model_name : string)
    temperature (max_tokens request_timeout : Z) :
  let env := declared_settings openai_api_key in
  (get_llm_azure env model_name temperature max_tokens request_timeout
     = inl (UnsupportedModelName model_name)
   \/ get_llm_azure env model_name temperature max_tokens request_timeout
     = inl (AttributeError "azure_openai_api_type")) /\
  snd (get_llm_anthropic env model_name temperature max_tokens request_timeout)
    = inl (AttributeError "anthropic_api_key").
Proof.
  cbv zeta. split.
  - unfold get_llm_azure. cbv zeta. rewrite model_classes_lookup.
    repeat case_decide; cbn; auto.
  - unfold get_llm_anthropic. destruct (bool_decide _); reflexivity.
Qed.

End ModelProperties.

Lemma get_llm_azure_deployment_witness :
  let llm :=
    {| azure_deployment := "gpt-35-turbo"; api_version := "2023-12-01-preview";
       az_temperature := QArith_base.Qmake 7 10; az_max_tokens := 256;
       openai_api_type := "azure"; azure_endpoint := "https://x"; api_key := "k" |} in
  (azure_deployment llm = "gpt-4"
     /\ "gpt-3.5-turbo-1106" ∈ ["gpt-4"; "gpt-4-1106-preview"]
   \/ azure_deployment llm = "gpt-35-turbo"
     /\ "gpt-3.5-turbo-1106" ∈ ["gpt-3.5-turbo"; "gpt-3.5-turbo-1106"]) /\
  api_version llm = "2023-12-01-preview" /\
  az_temperature llm = QArith_base.Qmake 7 10 /\ az_max_tokens llm = 256%Z.
Proof.
  cbv zeta.
  apply (get_llm_azure_deployment
           {[ "azure_openai_api_type" := "azure"; "azure_openai_api_base" := "https://x";
              "azure_openai_api_key" := "k" ]}
           "gpt-3.5-turbo-1106" (QArith_base.Qmake 7 10) 256%Z 60%Z).
  vm_compute. reflexivity.
Defined.

Lemma get_llm_anthropic_model_witness :
  let env : gmap string string := {[ "anthropic_api_key" := "k" ]} in
  let llm :=
    {| model := "claude-3-opus-20240229"; an_temperature := QArith_base.Qmake 7 10;
       anthropic_api_key := "k"; an_max_tokens := 256 |} in
  model llm ∈ models /\
  ("claude-2" ∈ models ->
     model llm = "claude-2" /\
     fst (get_llm_anthropic env "claude-2" (QArith_base.Qmake 7 10) 256 60) = []) /\
  ("claude-2" ∉ models ->
     model llm = "claude-3-opus-20240229" /\
     length (fst (get_llm_anthropic env "claude-2" (QArith_base.Qmake 7 10) 256 60)) = 1).
Proof.
  cbv zeta.
  apply (get_llm_anthropic_model {[ "anthropic_api_key" := "k" ]} "claude-2"
           (QArith_base.Qmake 7 10) 256%Z 60%Z).
  vm_compute. reflexivity.
Defined.

(** ** From the transcriber to the recap scripts *)



Lemma os_path_join_relative (a : ascii) (name : string) :
  a <> "/"%char ->
  os_path_join "data/output" (String a name) = "data/output/" +:+ String a name.
Proof.
  intros Ha.
  destruct a as [[] [] [] [] [] [] [] []]; try reflexivity. congruence.
Qed.

(** The recap scripts look for the transcript where the transcriber, under
    its default directories, has written it: for every input file name the
    input path of the scripts, taken for the name of the transcript, is the
    output path of [transcribe_file]. *)
Theorem recap_reads_transcript (input_filename : string) :
  recap_input_filepath
    (stem (input_filepath default_transcriber input_filename) +:+ ".txt")
  = output_filepath default_transcriber input_filename.
Proof.
  rewrite output_filepath_eq. unfold recap_input_filepath. cbv zeta.
  set (p := input_filepath default_transcriber input_filename).
  change (os_path_join "data/" "output") with "data/output".
  change (dir_prefix (output_path default_transcriber)) with "data/output/".
  pose proof (path_name_no_separator p) as Hname.
  rewrite <- (stem_suffix_split p) in Hname.
  destruct (stem p) as [|a rest]; [reflexivity|].
  change (String a rest +:+ ".txt") with (String a (rest +:+ ".txt")).
  apply os_path_join_relative.
  change (String a rest +:+ suffix p) with (String a (rest +:+ suffix p)) in Hname.
  apply rfind_cons_None in Hname as [Ha _]. exact Ha.
Qed.
